(** * Compressed set-associative tag store: entries, indexing policy, replacement

    A shallow embedding of
      - mem/cache/replacement_policies/replaceable_entry.hh
      - mem/cache/tags/indexing_policies/base.cc
      - mem/cache/tags/base_set_assoc.cc
    C++ pointers to entries are positions in the vector that owns them,
    fixed-width integers are [Z] with the wrap-around written out, and the
    outcomes the C++ reaches by [fatal], [assert], [throw] or by leaving the
    defined language are the constructors of [outcome]. *)

From Stdlib Require Import ZArith Lia Bool Ascii String.
From stdpp Require Import base option list.

Local Open Scope Z_scope.

(** ** Machine integers *)

Module Int.

(** Value of an unsigned [bits]-bit integer after wrap-around. *)
Definition wrap (bits x : Z) : Z := x mod 2 ^ bits.

Definition to_uint8 : Z -> Z := wrap 8.
Definition to_unsigned : Z -> Z := wrap 32.
Definition to_uint32 : Z -> Z := wrap 32.
Definition to_size_t : Z -> Z := wrap 64.

(** Conversion to a signed integer of [bits] bits (two's complement). *)
Definition signed (bits x : Z) : Z :=
  let y := wrap bits x in
  if y <? 2 ^ (bits - 1) then y else y - 2 ^ bits.

Definition to_int : Z -> Z := signed 32.
Definition to_long_long : Z -> Z := signed 64.

End Int.

(** ** How a call ends *)

Inductive failure : Type :=
| Fatal (msg : string)            (* fatal / fatal_if: the simulator exits *)
| AssertFailed (what : string)    (* assert *)
| OutOfRange (msg : string)       (* throw std::out_of_range *)
| RuntimeError (msg : string)     (* throw std::runtime_error *)
| Undefined (what : string).      (* no defined behaviour in C++ *)

Inductive outcome (A : Type) : Type :=
| Ret (a : A)
| Fail (f : failure).

Arguments Ret {A} a.
Arguments Fail {A} f.

Definition bind {A B : Type} (m : outcome A) (k : A -> outcome B) : outcome B :=
  match m with
  | Ret a => k a
  | Fail f => Fail f
  end.

Definition guard (ok : bool) (f : failure) : outcome unit :=
  if ok then Ret tt else Fail f.

Declare Scope outcome_scope.
Delimit Scope outcome_scope with outcome.
Notation "'do' x <- m ; k" := (bind m (fun x => k))
  (at level 10, x name, m at level 100, k at level 200,
   format "'[v' 'do'  x  <-  m ; '/' k ']'") : outcome_scope.
Notation "'ensure' b 'orelse' f ; k" := (bind (guard b f) (fun _ => k))
  (at level 10, b at level 100, f at level 100, k at level 200,
   format "'[v' 'ensure'  b  'orelse'  f ; '/' k ']'") : outcome_scope.
Local Open Scope outcome_scope.

(** ** replaceable_entry.hh *)

Module Entry.

(** The data members of [ReplaceableEntry]. [cSize] is a [uint8_t];
    [replacementData] is a handle only the replacement policy reads and
    is left out. *)
Record ReplaceableEntry : Type := mk {
  _set : Z;
  _way : Z;
  cSize : Z;
  cStatus : bool;
  coherenceState : ascii
}.

(** [ReplaceableEntry() : cSize(0), cStatus(false), coherenceState('I') {}].
    [_set] and [_way] have no initialiser: they hold whatever the storage
    held, here [set0] and [way0]. *)
Definition ReplaceableEntry_new (set0 way0 : Z) : ReplaceableEntry :=
  {| _set := set0; _way := way0;
     cSize := 0; cStatus := false; coherenceState := "I"%char |}.

Definition setPosition (e : ReplaceableEntry) (set way : Z) : ReplaceableEntry :=
  {| _set := set; _way := way;
     cSize := cSize e; cStatus := cStatus e;
     coherenceState := coherenceState e |}.

Definition getSet (e : ReplaceableEntry) : Z := _set e.
Definition getWay (e : ReplaceableEntry) : Z := _way e.
Definition getCompressedSize (e : ReplaceableEntry) : Z := cSize e.
Definition getCompressionStatus (e : ReplaceableEntry) : bool := cStatus e.
Definition getCoherenceState (e : ReplaceableEntry) : ascii := coherenceState e.

Definition setCompressedSize (e : ReplaceableEntry) (size : Z) : ReplaceableEntry :=
  {| _set := _set e; _way := _way e;
     cSize := Int.to_uint8 size; cStatus := cStatus e;
     coherenceState := coherenceState e |}.

Definition setCompressionStatus (e : ReplaceableEntry) (status : bool) : ReplaceableEntry :=
  {| _set := _set e; _way := _way e;
     cSize := cSize e; cStatus := status;
     coherenceState := coherenceState e |}.

Definition setCoherenceState (e : ReplaceableEntry) (state : ascii) : ReplaceableEntry :=
  {| _set := _set e; _way := _way e;
     cSize := cSize e; cStatus := cStatus e;
     coherenceState := state |}.

(** The data-model invariant on the coherence state, for an entry whose
    validity flag (kept by the tagged subclass) is [is_valid]. *)
Definition coherence_inv (is_valid : bool) (e : ReplaceableEntry) : Prop :=
  is_valid = false -> coherenceState e = "I"%char.

End Entry.

(** A pointer to an entry is its position in the vector that owns the
    entries ([blks] in the tag store). *)
Abbreviation ptr := nat (only parsing).

(** ** indexing_policies/base.cc *)

Module Indexing.

(** [(x != 0) && ((x & (x - 1)) == 0)] on a [uint32_t]. *)
Definition isPowerOf2 (x : Z) : bool :=
  negb (x =? 0) && (Z.land x (Int.to_uint32 (x - 1)) =? 0).

(** [static_cast<uint32_t>(std::log2(x))]: the integer part of the binary
    logarithm, for [x > 0]. At 0 the logarithm is not finite and C++ does
    not fix the converted value; it is taken to be 0, and no check of the
    constructor depends on it. *)
Definition floorLog2 (x : Z) : Z := Z.log2 x.

(** The construction parameters the constructor reads. Their types, and
    those of the members below, are declared in headers outside the
    sources at hand: the values are integers, and the product and the
    quotient of the initialiser of [numSets] are taken where they do not
    wrap. *)
Record Params : Type := {
  p_size : Z;
  p_entry_size : Z;
  p_assoc : Z
}.

(** [sets[set][way]] holds a pointer to an entry, or null. *)
Record BaseIndexingPolicy : Type := {
  assoc : Z;
  numSets : Z;
  setShift : Z;
  setMask : Z;
  sets : list (list (option ptr));
  tagShift : Z
}.

(** The constructor. The member initialisers run first, in the order
    written, and the body's two [fatal_if] after them; the quotient
    [p.size / (p.entry_size * assoc)] of the initialiser of [numSets] has
    no defined value when the divisor is zero. [numSegments], the length
    each set is resized to, is declared outside the sources at hand and
    is a parameter. *)
Definition BaseIndexingPolicy_new (numSegments : Z) (p : Params)
  : outcome BaseIndexingPolicy :=
  let assoc := p_assoc p in
  ensure negb (p_entry_size p * assoc =? 0)
    orelse Undefined "division by zero";
  let numSets := Int.to_uint32 (p_size p ÷ (p_entry_size p * assoc)) in
  let setShift := floorLog2 (p_entry_size p) in
  let setMask := Int.to_unsigned (numSets - 1) in
  let tagShift := setShift + floorLog2 numSets in
  ensure isPowerOf2 numSets
    orelse Fatal "# of sets must be non-zero and a power of 2";
  ensure negb (assoc <=? 0)
    orelse Fatal "associativity must be greater than zero";
  Ret {| assoc := assoc; numSets := numSets;
         setShift := setShift; setMask := setMask;
         sets := replicate (Z.to_nat numSets)
                   (replicate (Z.to_nat numSegments) None);
         tagShift := tagShift |}.

(** [sets[set][way] = entry] on vectors: [operator[]] is unchecked, so a
    position outside the table has no defined behaviour. *)
Definition store_entry (tbl : list (list (option ptr))) (set way : Z)
    (entry : ptr) : outcome (list (list (option ptr))) :=
  match tbl !! Z.to_nat set with
  | Some row =>
      ensure way <? Z.of_nat (length row)
        orelse Undefined "sets[set][way] out of bounds";
      Ret (<[Z.to_nat set := <[Z.to_nat way := Some entry]> row]> tbl)
  | None => Fail (Undefined "sets[set] out of bounds")
  end.

(** [entry->setPosition(set, way)] through a pointer into [entries]. *)
Definition inform_position (entries : list Entry.ReplaceableEntry)
    (entry : ptr) (set way : Z) : outcome (list Entry.ReplaceableEntry) :=
  match entries !! entry with
  | Some e => Ret (<[entry := Entry.setPosition e set way]> entries)
  | None => Fail (Undefined "entry does not point to an entry")
  end.

(** The first definition of [setEntry] (base.cc:112-128): quotient and
    remainder of the index by the associativity. *)
Definition setEntry (ip : BaseIndexingPolicy)
    (entries : list Entry.ReplaceableEntry) (entry : ptr) (index : Z)
  : outcome (BaseIndexingPolicy * list Entry.ReplaceableEntry) :=
  ensure negb (assoc ip =? 0) orelse Undefined "division by zero";
  let quot := Int.to_long_long index ÷ assoc ip in
  let rem := Z.rem (Int.to_long_long index) (assoc ip) in
  let set := Int.to_uint32 quot in
  let way := Int.to_uint32 rem in
  ensure set <? numSets ip orelse AssertFailed "set < numSets";
  do tbl <- store_entry (sets ip) set way entry;
  do entries' <- inform_position entries entry set way;
  Ret ({| assoc := assoc ip; numSets := numSets ip;
          setShift := setShift ip; setMask := setMask ip;
          sets := tbl; tagShift := tagShift ip |}, entries').

(** The second definition of [setEntry] (base.cc:130-137): the set is the
    index masked by [setMask], the way the shifted index masked by
    [assoc - 1]; the entry is not told its position. *)
Definition setEntry_mask (ip : BaseIndexingPolicy)
    (entries : list Entry.ReplaceableEntry) (entry : ptr) (index : Z)
  : outcome (BaseIndexingPolicy * list Entry.ReplaceableEntry) :=
  let set := Int.to_uint32 (Z.land index (setMask ip)) in
  let way :=
    Int.to_uint32 (Z.land (Z.shiftr index (setShift ip))
                          (Int.to_unsigned (assoc ip - 1))) in
  do tbl <- store_entry (sets ip) set way entry;
  Ret ({| assoc := assoc ip; numSets := numSets ip;
          setShift := setShift ip; setMask := setMask ip;
          sets := tbl; tagShift := tagShift ip |}, entries).

(** Reading [sets[set][way]], as the commented-out [getEntry] does. *)
Definition entry_at (ip : BaseIndexingPolicy) (set way : Z) : option ptr :=
  row ← sets ip !! Z.to_nat set; mjoin (row !! Z.to_nat way).

(** [addr >> tagShift]. *)
Definition extractTag (ip : BaseIndexingPolicy) (addr : Z) : Z :=
  Z.shiftr addr (tagShift ip).

(** [getEntryData], for [set] and [segmentOffset] in the range of
    [uint32_t]. The two checks throw; the value returned is
    [sets[set][dataStart, dataEnd]], where the comma expression has the
    value of [dataEnd], so the element of the set at position [dataEnd]
    is read, unchecked. The result is a pointer that may be null. *)
Definition getEntryData (ip : BaseIndexingPolicy)
    (set segmentOffset : Z) (cStatus : bool) (cSize : Z)
  : outcome (option ptr) :=
  ensure set <? Z.of_nat (length (sets ip))
    orelse OutOfRange "Index out of bounds";
  let row := default [] (sets ip !! Z.to_nat set) in
  ensure segmentOffset <? Z.of_nat (length row)
    orelse OutOfRange "Index out of bounds";
  match mjoin (row !! Z.to_nat segmentOffset) with
  | None => Fail (RuntimeError "Entry is null")
  | Some _ =>
      let dataStart := Int.to_size_t (segmentOffset * 8) in
      let dataEnd :=
        if cStatus then Int.to_size_t (dataStart + Int.to_size_t (cSize * 8))
        else Int.to_size_t (dataStart + 8 * 8) in
      ensure dataEnd <? Z.of_nat (length row)
        orelse Undefined "sets[set][dataEnd] out of bounds";
      Ret (mjoin (row !! Z.to_nat dataEnd))
  end.

End Indexing.

(** ** tags/base_set_assoc.cc *)

Module Tags.

(** Modelled from the spec: the members of a cache block the tag store
    reads and writes ([CacheBlk] and the tagged entry it derives from are
    declared in mem/cache/cache_blk.hh and tagged_entry.hh, not among the
    sources). [cSize] is the member read as [cache_blk->cSize] and turned
    into segments with [(cSize + 63) / 64]: an unsigned size, of no fixed
    width here. The [cSize] of [ReplaceableEntry] is a protected
    [uint8_t]; statements that depend on the width say so. *)
Record CacheBlk : Type := {
  valid : bool;
  tag : Z;
  secure : bool;
  cSize : Z;
  lastTouchTick : Z
}.

Definition isValid (b : CacheBlk) : bool := valid b.

(** Modelled from the spec: [matchTag] of the tagged entry
    (mem/cache/tags/tagged_entry.hh is not among the sources). A valid
    entry matches when its (tag, secure) pair equals the requested one. *)
Definition matchTag (b : CacheBlk) (t : Z) (is_secure : bool) : bool :=
  valid b && (tag b =? t) && eqb (secure b) is_secure.

(** The parameters the tag store's constructor reads; [indexing_policy]
    is a pointer that may be null. *)
Record Params : Type := {
  p_size : Z;
  p_block_size : Z;
  p_assoc : Z;
  p_indexing_policy : option Indexing.BaseIndexingPolicy
}.

Record BaseSetAssoc : Type := {
  allocAssoc : Z;
  blkSize : Z;
  indexingPolicy : Indexing.BaseIndexingPolicy;
  blks : list CacheBlk;
  tagsInUse : Z
}.

(** A block as the vector constructor leaves it: invalid, size 0. *)
Definition CacheBlk_new : CacheBlk :=
  {| valid := false; tag := 0; secure := false; cSize := 0;
     lastTouchTick := 0 |}.

(** Modelled from the spec: [isPowerOf2] of base/intmath.hh (not among
    the sources) on the block size, a power of two being a non-zero value
    with a single bit set. *)
Definition isPowerOf2 (n : Z) : bool :=
  negb (n =? 0) && (Z.land n (n - 1) =? 0).

(** The constructor: the initialiser [blks(p.size / p.block_size)] runs
    before the body, which holds the two checks. The base class (not
    among the sources) keeps the block size as [blkSize]. *)
Definition BaseSetAssoc_new (p : Params) : outcome BaseSetAssoc :=
  ensure negb (p_block_size p =? 0) orelse Undefined "division by zero";
  let blks := replicate (Z.to_nat (p_size p ÷ p_block_size p)) CacheBlk_new in
  let blkSize := p_block_size p in
  match p_indexing_policy p with
  | None => Fail (Fatal "An indexing policy is required")
  | Some ip =>
      ensure negb ((blkSize <? 4) || negb (isPowerOf2 blkSize))
        orelse Fatal "Block size must be at least 4 and a power of 2";
      Ret {| allocAssoc := p_assoc p; blkSize := blkSize;
             indexingPolicy := ip; blks := blks; tagsInUse := 0 |}
  end.

(** [(cSize + 63) / 64]: size to segments. *)
Definition segs (c : Z) : Z := (c + 63) / 64.

Definition max_set_segments : Z := 32.

(** The locals of [findCompressedDataReplacement] that live across the
    loop over the set. *)
Record scan : Type := {
  replacement : option ptr;
  update_blk : option ptr;
  valid_blocks : list ptr;
  segments : Z;
  evicts : list ptr
}.

Definition scan_init (evicts0 : list ptr) : scan :=
  {| replacement := None; update_blk := None; valid_blocks := [];
     segments := 0; evicts := evicts0 |}.

(** One iteration of the loop (base_set_assoc.cc:139-158) on the block
    [b] that pointer [p] designates. *)
Definition scan_block (t : Z) (is_secure update_expansion : bool)
    (st : scan) (p : ptr) (b : CacheBlk) : scan :=
  if isValid b then
    if matchTag b t is_secure && update_expansion then
      {| replacement := Some p; update_blk := Some p;
         valid_blocks := valid_blocks st; segments := segments st;
         evicts := evicts st |}
    else
      {| replacement := replacement st; update_blk := update_blk st;
         valid_blocks := valid_blocks st ++ [p];
         segments := Int.to_unsigned (segments st + segs (cSize b));
         evicts := evicts st |}
  else
    {| replacement := Some p; update_blk := update_blk st;
       valid_blocks := valid_blocks st; segments := segments st;
       evicts := evicts st ++ [p] |}.

(** The loop over the candidate blocks; [p] is the pointer to the head
    of [bs]. *)
Fixpoint scan_blocks (t : Z) (is_secure update_expansion : bool)
    (st : scan) (p : ptr) (bs : list CacheBlk) : scan :=
  match bs with
  | [] => st
  | b :: bs' =>
      scan_blocks t is_secure update_expansion
        (scan_block t is_secure update_expansion st p b) (S p) bs'
  end.

(** [int extra_segments = (req_size + 63) / 64 - (max_set_segments - segments)]:
    the quotient is a [size_t], the difference in parentheses an
    [unsigned], their difference a [size_t] converted to [int]. *)
Definition extra_segments0 (req_size segments : Z) : Z :=
  Int.to_int
    (Int.to_size_t
       (Int.to_size_t (req_size + 63) / 64
        - Int.to_unsigned (max_set_segments - segments))).

(** [extra_segments -= (replacement->cSize + 63) / 64]. *)
Definition extra_less (extra : Z) (b : CacheBlk) : Z :=
  Int.to_int (extra - segs (cSize b)).

(** Which of the two calls to [getVictim] a query comes from. *)
Inductive site : Type := FirstVictim | LargeVictim.

(** What the call produces: the pointer returned, the vector [evicts] as
    the call leaves it, and the queries made to the replacement policy,
    with the candidates offered, in order (kept for the statements about
    when the policy is consulted). *)
Record decision : Type := {
  target : ptr;
  evicted : list ptr;
  victim_calls : list (site * list ptr)
}.

Section WithPolicy.

(** [replacementPolicy->getVictim]: a victim among the candidates, or
    no result (the policies reject an empty candidate list). *)
Variable getVictim : list ptr -> option ptr.

(** [large_blocks]: the valid blocks of at least [extra] segments other
    than [repl]. *)
Definition large_blocks (blocks : list CacheBlk) (valid_blocks : list ptr)
    (extra : Z) (repl : ptr) : list ptr :=
  List.filter
    (fun p =>
       match blocks !! p with
       | Some b => (extra <=? segs (cSize b)) && negb (Nat.eqb p repl)
       | None => false
       end)
    valid_blocks.

(** [findCompressedDataReplacement]. [blocks] is the vector
    [getPossibleEntries(addr)] returns, [evicts0] the vector the caller
    passes by reference. [None] stands for the dereference of a null or
    foreign pointer (no victim, or a victim outside the set). *)
Definition findCompressedDataReplacement
    (ip : Indexing.BaseIndexingPolicy) (blocks : list CacheBlk)
    (addr : Z) (is_secure : bool) (req_size : Z)
    (evicts0 : list ptr) (update_expansion : bool) : option decision :=
  let t := Indexing.extractTag ip addr in
  let st := scan_blocks t is_secure update_expansion
              (scan_init evicts0) 0%nat blocks in
  let extra := extra_segments0 req_size (segments st) in
  '(repl1, evicts1, calls1) ←
    (if (0 <? extra) || negb (bool_decide (is_Some (replacement st))) then
       v ← getVictim (valid_blocks st);
       Some (v, evicts st ++ [v], [(FirstVictim, valid_blocks st)])
     else
       r ← replacement st; Some (r, evicts st, []));
  b1 ← blocks !! repl1;
  let extra1 := extra_less extra b1 in
  '(repl2, evicts2, calls2) ←
    (if 0 <? extra1 then
       let large := large_blocks blocks (valid_blocks st) extra1 repl1 in
       match large with
       | [] => Some (repl1, evicts1, calls1)
       | _ :: _ =>
           v ← getVictim large;
           Some (v, evicts1 ++ [v], calls1 ++ [(LargeVictim, large)])
       end
     else Some (repl1, evicts1, calls1));
  b2 ← blocks !! repl2;
  let extra2 := extra_less extra1 b2 in
  Some {| target := default repl2 (update_blk st);
          evicted := evicts2;
          victim_calls := calls2 |}.

End WithPolicy.

(** A stub policy: the candidate with the highest index. *)
Definition highest_index (candidates : list ptr) : option ptr :=
  match candidates with
  | [] => None
  | p :: ps => Some (foldr Nat.max p ps)
  end.

(** The segments a set holds: the sum over its valid blocks. *)
Definition set_segments (blocks : list CacheBlk) : Z :=
  foldr (fun b acc => (if isValid b then segs (cSize b) else 0) + acc) 0 blocks.

(** [tagsInit], on the part of each block the indexing policy sees: block
    [blk_index] is linked with [setEntry(blk, blk_index)], for the indices
    from [blk_index] up to [numBlocks]. [set_entry] is the definition of
    [setEntry] the call resolves to. The data chunk and the replacement
    data of a block play no part in the positions and are left out. *)
Fixpoint tagsInit_from
    (set_entry : Indexing.BaseIndexingPolicy -> list Entry.ReplaceableEntry ->
                 ptr -> Z ->
                 outcome (Indexing.BaseIndexingPolicy * list Entry.ReplaceableEntry))
    (ip : Indexing.BaseIndexingPolicy) (entries : list Entry.ReplaceableEntry)
    (blk_index : nat) (remaining : nat)
  : outcome (Indexing.BaseIndexingPolicy * list Entry.ReplaceableEntry) :=
  match remaining with
  | O => Ret (ip, entries)
  | S remaining' =>
      do st <- set_entry ip entries blk_index (Z.of_nat blk_index);
      tagsInit_from set_entry st.1 st.2 (S blk_index) remaining'
  end.

Definition tagsInit set_entry ip entries :=
  tagsInit_from set_entry ip entries 0 (length entries).

(** Modelled from the spec: [invalidate] of the base class (not among
    the sources) clears the validity flag of the block. *)
Definition base_invalidate (b : CacheBlk) : CacheBlk :=
  {| valid := false; tag := tag b; secure := secure b; cSize := cSize b;
     lastTouchTick := lastTouchTick b |}.

(** [BaseSetAssoc::invalidate] on one block: the base class first, then
    [blk->lastTouchTick = Tick(0)]. *)
Definition invalidate_blk (b : CacheBlk) : CacheBlk :=
  let b' := base_invalidate b in
  {| valid := valid b'; tag := tag b'; secure := secure b';
     cSize := cSize b'; lastTouchTick := 0 |}.

Definition invalidate (ts : BaseSetAssoc) (blk : ptr) : BaseSetAssoc :=
  {| allocAssoc := allocAssoc ts; blkSize := blkSize ts;
     indexingPolicy := indexingPolicy ts;
     blks := alter invalidate_blk blk (blks ts);
     tagsInUse := tagsInUse ts - 1 |}.

(** Modelled from the spec: the caller acting on a decision (the cache
    controller is not among the sources). Every evicted block that is
    valid is invalidated, then the line is written into the target, which
    becomes valid with the requested tag and size. *)
Definition evict_all (blocks : list CacheBlk) (evicted : list ptr)
  : list CacheBlk :=
  foldl (fun bs p => alter invalidate_blk p bs) blocks evicted.

(** Modelled from the spec: the write of the requested line into the
    target, at simulated time [now]. *)
Definition fill (t : Z) (is_secure : bool) (req_size now : Z)
    (b : CacheBlk) : CacheBlk :=
  {| valid := true; tag := t; secure := is_secure; cSize := req_size;
     lastTouchTick := now |}.

(** What the caller asks for: the arguments of one call. *)
Record request : Type := {
  r_addr : Z;
  r_secure : bool;
  r_size : Z;
  r_update : bool
}.

(** Modelled from the spec: one install, the decision followed by the
    caller acting on it. *)
Definition install (getVictim : list ptr -> option ptr)
    (ip : Indexing.BaseIndexingPolicy) (now : Z)
    (blocks : list CacheBlk) (r : request) : option (list CacheBlk) :=
  d ← findCompressedDataReplacement getVictim ip blocks
        (r_addr r) (r_secure r) (r_size r) [] (r_update r);
  Some (alter
          (fill (Indexing.extractTag ip (r_addr r)) (r_secure r) (r_size r) now)
          (target d)
          (evict_all blocks (evicted d))).

(** Modelled from the spec: a sequence of installs on one set, one
    simulated time step apart. *)
Fixpoint installs (getVictim : list ptr -> option ptr)
    (ip : Indexing.BaseIndexingPolicy) (now : Z)
    (blocks : list CacheBlk) (rs : list request) : option (list CacheBlk) :=
  match rs with
  | [] => Some blocks
  | r :: rs' =>
      blocks' ← install getVictim ip now blocks r;
      installs getVictim ip (now + 1) blocks' rs'
  end.

End Tags.

(** ** Vocabulary of the statements *)

Import Tags.

(** The pointers to the blocks of [bs] that satisfy [keep], in order; [p]
    points to the head of [bs]. *)
Fixpoint positions (keep : CacheBlk -> bool) (p : ptr) (bs : list CacheBlk)
  : list ptr :=
  match bs with
  | [] => []
  | b :: bs' =>
      (if keep b then [p] else []) ++ positions keep (S p) bs'
  end.

(** A resident block as the code takes it: valid, and not the matching
    block of an update. *)
Definition is_resident (t : Z) (is_secure update_expansion : bool)
    (b : CacheBlk) : bool :=
  isValid b && negb (matchTag b t is_secure && update_expansion).

Definition is_free (b : CacheBlk) : bool := negb (isValid b).

(** The segments of the blocks that satisfy [keep]. *)
Definition segments_of (keep : CacheBlk -> bool) (bs : list CacheBlk) : Z :=
  foldr (fun b acc => (if keep b then segs (cSize b) else 0) + acc) 0 bs.

(** The state of the locals after the loop over the set. *)
Definition scanned (ip : Indexing.BaseIndexingPolicy) (blocks : list CacheBlk)
    (addr : Z) (is_secure update_expansion : bool) (evicts0 : list ptr) : scan :=
  scan_blocks (Indexing.extractTag ip addr) is_secure update_expansion
    (scan_init evicts0) 0%nat blocks.

(** A replacement policy that keeps to its contract: the victim is one of
    the candidates. *)
Definition picks_candidate (getVictim : list ptr -> option ptr) : Prop :=
  forall c v, getVictim c = Some v -> v ∈ c.

(** A one-set, four-way indexing policy with 64-byte entries, as the
    constructor builds it and [tagsInit] fills it. *)
Definition ip4 : Indexing.BaseIndexingPolicy :=
  {| Indexing.assoc := 4; Indexing.numSets := 1; Indexing.setShift := 6;
     Indexing.setMask := 0;
     Indexing.sets := [[Some 0; Some 1; Some 2; Some 3]%nat];
     Indexing.tagShift := 6 |}.

(** A non-secure block. *)
Definition blk (v : bool) (t c : Z) : CacheBlk :=
  {| valid := v; tag := t; secure := false; cSize := c; lastTouchTick := 0 |}.

(** A request for a line of [s] bytes at the address of tag [a]. *)
Definition rq (a s : Z) : request :=
  {| r_addr := 64 * a; r_secure := false; r_size := s; r_update := false |}.

(** A one-set, seventeen-way policy, and one of sixteen ways. *)
Definition ip_ways (n : nat) : Indexing.BaseIndexingPolicy :=
  {| Indexing.assoc := Z.of_nat n; Indexing.numSets := 1;
     Indexing.setShift := 6; Indexing.setMask := 0;
     Indexing.sets := [Some <$> seq 0 n];
     Indexing.tagShift := 6 |}.

(** Two sets of two ways with 64-byte entries, before [tagsInit]. *)
Definition ip22 : Indexing.BaseIndexingPolicy :=
  {| Indexing.assoc := 2; Indexing.numSets := 2; Indexing.setShift := 6;
     Indexing.setMask := 1;
     Indexing.sets := [[None; None]; [None; None]];
     Indexing.tagShift := 7 |}.

Definition fresh_entries (n : nat) : list Entry.ReplaceableEntry :=
  replicate n (Entry.ReplaceableEntry_new 0 0).

(** The position an entry reports, through its pointer. *)
Definition position_of (entries : list Entry.ReplaceableEntry) (entry : ptr)
  : option (Z * Z) :=
  e ← entries !! entry; Some (Entry.getSet e, Entry.getWay e).

(** Installs that fill a four-way set with three lines of 10 segments,
    then ask for 23 segments. *)
Definition growth_requests : list request :=
  [rq 1 640; rq 2 640; rq 3 640; rq 4 1472].

(** Installs of sizes that fit eight bits: two lines of one segment,
    fifteen of two, then a request for four. *)
Definition small_requests : list request :=
  [rq 1 64; rq 2 64]
  ++ ((fun a => rq (Z.of_nat a) 128) <$> seq 3 15)
  ++ [rq 18 255].

(** The segments an empty set of [n] ways holds after the installs [rs]. *)
Definition segments_after (getVictim : list ptr -> option ptr)
    (ip : Indexing.BaseIndexingPolicy) (n : nat) (rs : list request) : option Z :=
  bs ← installs getVictim ip 0 (replicate n CacheBlk_new) rs;
  Some (set_segments bs).

(** The four-way set after the first three installs of
    [growth_requests]. *)
Definition three_lines : list CacheBlk :=
  [CacheBlk_new;
   {| valid := true; tag := 3; secure := false; cSize := 640;
      lastTouchTick := 2 |};
   {| valid := true; tag := 2; secure := false; cSize := 640;
      lastTouchTick := 1 |};
   {| valid := true; tag := 1; secure := false; cSize := 640;
      lastTouchTick := 0 |}].

(** What index [index] leads to under a definition of [setEntry]: the
    content of the table and the position entry [index] reports. *)
Definition linked
    (set_entry : Indexing.BaseIndexingPolicy -> list Entry.ReplaceableEntry ->
                 ptr -> Z ->
                 outcome (Indexing.BaseIndexingPolicy * list Entry.ReplaceableEntry))
    (ip : Indexing.BaseIndexingPolicy) (n : nat) (index : nat)
  : outcome (list (list (option ptr)) * option (Z * Z)) :=
  do r <- set_entry ip (fresh_entries n) index (Z.of_nat index);
  Ret (Indexing.sets r.1, position_of r.2 index).

(** The table and the positions after [tagsInit]. *)
Definition initialised
    (set_entry : Indexing.BaseIndexingPolicy -> list Entry.ReplaceableEntry ->
                 ptr -> Z ->
                 outcome (Indexing.BaseIndexingPolicy * list Entry.ReplaceableEntry))
    (ip : Indexing.BaseIndexingPolicy) (n : nat)
  : outcome (list (list (option ptr)) * list (option (Z * Z))) :=
  do r <- tagsInit set_entry ip (fresh_entries n);
  Ret (Indexing.sets r.1, position_of r.2 <$> seq 0 n).

(** The first decision of [findCompressedDataReplacement]
    (base_set_assoc.cc:165-168), from the locals [st] after the loop and
    the shortfall [extra]: the policy is asked, or the block chosen in
    the loop is kept. *)
Definition first_stage (getVictim : list ptr -> option ptr) (st : scan)
    (extra : Z) (repl1 : ptr) (evicts1 : list ptr)
    (calls1 : list (site * list ptr)) : Prop :=
  ((0 < extra \/ replacement st = None)
   /\ getVictim (valid_blocks st) = Some repl1
   /\ evicts1 = evicts st ++ [repl1]
   /\ calls1 = [(FirstVictim, valid_blocks st)])
  \/
  (~ (0 < extra \/ replacement st = None)
   /\ replacement st = Some repl1
   /\ evicts1 = evicts st
   /\ calls1 = []).

(** The second decision (base_set_assoc.cc:173-189): a large enough block
    is evicted as well, or nothing changes. *)
Definition second_stage (getVictim : list ptr -> option ptr)
    (blocks : list CacheBlk) (st : scan)
    (repl1 : ptr) (evicts1 : list ptr) (calls1 : list (site * list ptr))
    (extra1 : Z)
    (repl2 : ptr) (evicts2 : list ptr) (calls2 : list (site * list ptr))
  : Prop :=
  let large := large_blocks blocks (valid_blocks st) extra1 repl1 in
  (0 < extra1 /\ large <> []
   /\ getVictim large = Some repl2
   /\ evicts2 = evicts1 ++ [repl2]
   /\ calls2 = calls1 ++ [(LargeVictim, large)])
  \/
  (~ (0 < extra1 /\ large <> [])
   /\ repl2 = repl1 /\ evicts2 = evicts1 /\ calls2 = calls1).

(** *** The statements of the specification the code departs from

    Each is written as the specification words it; the theorems below
    settle it on the code. *)

(** The forced multi-eviction scenario: four ways and none free, ways 0 to
    2 valid and non-matching with 20, 10 and 5 segments, 35 segments
    occupied, 3 segments requested, a policy returning the highest
    candidate. The call is to return way 1 and evict ways 2 and 1, asking
    the policy twice. *)
Definition forced_multi_eviction_as_specified : Prop :=
  forall ip b0 b1 b2 b3 addr is_secure req_size update_expansion,
    let t := Indexing.extractTag ip addr in
    let blocks := [b0; b1; b2; b3] in
    Forall (fun b => isValid b = true) blocks ->
    Forall (fun b => matchTag b t is_secure = false) [b0; b1; b2] ->
    segs (cSize b0) = 20 -> segs (cSize b1) = 10 -> segs (cSize b2) = 5 ->
    segments (scanned ip blocks addr is_secure update_expansion []) = 35 ->
    0 <= req_size -> (req_size + 63) / 64 = 3 ->
    exists d,
      findCompressedDataReplacement highest_index ip blocks addr is_secure
        req_size [] update_expansion = Some d
      /\ target d = 1%nat /\ evicted d = [2; 1]%nat
      /\ length (victim_calls d) = 2%nat.

(** The valid block that matches the request is never resident, whatever
    [update_expansion] is. *)
Definition matched_never_resident : Prop :=
  forall ip blocks addr is_secure update_expansion p b,
    blocks !! p = Some b ->
    matchTag b (Indexing.extractTag ip addr) is_secure = true ->
    p ∉ valid_blocks (scanned ip blocks addr is_secure update_expansion []).

(** A target chosen during the loop, a free block or the matching block
    of an update, remains the target. *)
Definition chosen_target_kept : Prop :=
  forall getVictim ip blocks addr is_secure req_size update_expansion d r,
    findCompressedDataReplacement getVictim ip blocks addr is_secure
      req_size [] update_expansion = Some d ->
    let st := scanned ip blocks addr is_secure update_expansion [] in
    replacement st = Some r ->
    target d = r \/ update_blk st = Some (target d).

(** The target is among the evicted blocks only when it is a free block. *)
Definition target_evicted_only_if_free : Prop :=
  forall getVictim ip blocks addr is_secure req_size update_expansion d,
    picks_candidate getVictim ->
    findCompressedDataReplacement getVictim ip blocks addr is_secure
      req_size [] update_expansion = Some d ->
    target d ∈ evicted d ->
    exists b, blocks !! target d = Some b /\ isValid b = false.

(** *** Vocabulary of the further properties *)

(** A policy that returns no victim exactly on an empty candidate list. *)
Definition rejects_only_empty (getVictim : list ptr -> option ptr) : Prop :=
  forall c, getVictim c = None <-> c = [].

(** The segments held by the valid blocks among those [ps] points to. *)
Definition freed (blocks : list CacheBlk) (ps : list ptr) : Z :=
  foldr (fun p acc =>
           match blocks !! p with
           | Some b => if isValid b then segs (cSize b) else 0
           | None => 0
           end + acc) 0 ps.

(** The matching block of an update, as the loop tests it. *)
Definition is_updating (t : Z) (is_secure update_expansion : bool)
    (b : CacheBlk) : bool :=
  isValid b && (matchTag b t is_secure && update_expansion).

(** A decision seen from a caller whose vector held [evicts0] on entry. *)
Definition after_evicts (evicts0 : list ptr) (d : decision) : decision :=
  {| target := target d; evicted := evicts0 ++ evicted d;
     victim_calls := victim_calls d |}.

(** A table of [numSets] sets with room for [assoc] ways in each. *)
Definition table_shaped (ip : Indexing.BaseIndexingPolicy) : Prop :=
  length (Indexing.sets ip) = Z.to_nat (Indexing.numSets ip)
  /\ Forall (fun row => Indexing.assoc ip <= Z.of_nat (length row))
            (Indexing.sets ip).

(** ** Machine integers: the conversions in range *)

Lemma wrap_small bits x : 0 <= x < 2 ^ bits -> Int.wrap bits x = x.
Proof. intros H. unfold Int.wrap. now apply Z.mod_small. Qed.

Lemma to_int_small x : - 2 ^ 31 <= x < 2 ^ 31 -> Int.to_int x = x.
Proof.
  intros H. unfold Int.to_int, Int.signed, Int.wrap.
  change (2 ^ (32 - 1)) with 2147483648 in *.
  change (2 ^ 32) with 4294967296 in *. change (2 ^ 31) with 2147483648 in *.
  destruct (Z_lt_le_dec x 0) as [Hneg | Hpos].
  - replace (x mod 4294967296) with (x + 4294967296).
    + destruct (Z.ltb_spec (x + 4294967296) 2147483648); lia.
    + apply Z.mod_unique with (q := -1); lia.
  - rewrite Z.mod_small by lia.
    destruct (Z.ltb_spec x 2147483648); lia.
Qed.

Lemma to_int_size_t x : Int.to_int (Int.to_size_t x) = Int.to_int x.
Proof.
  unfold Int.to_int, Int.signed, Int.to_size_t, Int.wrap.
  rewrite Z.mod_mod_divide; [reflexivity|].
  exists (2 ^ 32). reflexivity.
Qed.

(** The shortfall computed on entry is the mathematical one whenever the
    operands are small. *)
Lemma extra_segments0_small req_size segments :
  0 <= req_size < 2 ^ 32 -> 0 <= segments < 2 ^ 30 ->
  extra_segments0 req_size segments
  = (req_size + 63) / 64 - (max_set_segments - segments).
Proof.
  intros Hr Hs. unfold extra_segments0, max_set_segments.
  rewrite to_int_size_t. unfold Int.to_size_t.
  rewrite (wrap_small 64 (req_size + 63)) by lia.
  assert (0 <= (req_size + 63) / 64 < 2 ^ 27) as Hn.
  { split; [apply Z.div_pos; lia|]. apply Z.div_lt_upper_bound; lia. }
  set (needed := (req_size + 63) / 64) in *.
  unfold Int.to_unsigned, Int.wrap.
  destruct (Z_le_gt_dec segments 32) as [Hle | Hgt].
  - rewrite Z.mod_small by lia. apply to_int_small; lia.
  - replace ((32 - segments) mod 2 ^ 32) with (32 - segments + 2 ^ 32)
      by (apply Z.mod_unique with (q := -1); lia).
    replace (needed - (32 - segments + 2 ^ 32))
      with (needed - (32 - segments) + (-1) * 2 ^ 32) by ring.
    rewrite <- (to_int_small (needed - (32 - segments))) at 2 by lia.
    unfold Int.to_int, Int.signed, Int.wrap.
    now rewrite Z.mod_add by lia.
Qed.

(** ** The loop over the set *)

Section Scan.

Variables (t : Z) (is_secure update_expansion : bool).

Local Abbreviation resident := (is_resident t is_secure update_expansion).
Local Abbreviation updating := (fun b => isValid b && (matchTag b t is_secure && update_expansion)).

Lemma elem_of_positions keep bs : forall p0 p,
  p ∈ positions keep p0 bs <->
  (p0 <= p)%nat /\ exists b, bs !! (p - p0)%nat = Some b /\ keep b = true.
Proof.
  induction bs as [|b bs IH]; intros p0 p; simpl.
  - split; [intros H; inversion H | intros (_ & b & Hb & _); discriminate].
  - rewrite elem_of_app, IH. split.
    + intros [Hhd | (Hle & b' & Hb' & Hk)].
      * destruct (keep b) eqn:Hk; [|inversion Hhd].
        apply list_elem_of_singleton in Hhd as ->.
        split; [lia|]. exists b. now rewrite Nat.sub_diag.
      * split; [lia|]. exists b'. split; [|exact Hk].
        replace (p - p0)%nat with (S (p - S p0)) by lia. exact Hb'.
    + intros (Hle & b' & Hb' & Hk).
      destruct (decide (p = p0)) as [-> | Hne].
      * left. rewrite Nat.sub_diag in Hb'. simpl in Hb'.
        injection Hb' as ->. rewrite Hk. now apply list_elem_of_singleton.
      * right. split; [lia|]. exists b'. split; [|exact Hk].
        replace (p - p0)%nat with (S (p - S p0)) in Hb' by lia. exact Hb'.
Qed.

Lemma scan_valid_blocks bs : forall st p,
  valid_blocks (scan_blocks t is_secure update_expansion st p bs)
  = valid_blocks st ++ positions resident p bs.
Proof.
  induction bs as [|b bs IH]; intros st p; simpl.
  - now rewrite app_nil_r.
  - rewrite IH. unfold scan_block, is_resident.
    destruct (isValid b); simpl;
      [destruct (matchTag b t is_secure && update_expansion); simpl|];
      now rewrite <- ?app_assoc.
Qed.

Lemma scan_evicts bs : forall st p,
  evicts (scan_blocks t is_secure update_expansion st p bs)
  = evicts st ++ positions is_free p bs.
Proof.
  induction bs as [|b bs IH]; intros st p; simpl.
  - now rewrite app_nil_r.
  - rewrite IH. unfold scan_block, is_free.
    destruct (isValid b); simpl;
      [destruct (matchTag b t is_secure && update_expansion); simpl|];
      now rewrite <- ?app_assoc.
Qed.

Lemma scan_segments bs : forall st p,
  0 <= segments st < 2 ^ 32 ->
  segments (scan_blocks t is_secure update_expansion st p bs)
  = Int.to_unsigned (segments st + segments_of resident bs).
Proof.
  induction bs as [|b bs IH]; intros st p Hst; simpl.
  - rewrite Z.add_0_r. symmetry. now apply wrap_small.
  - assert (0 <= Int.to_unsigned (segments st + segs (cSize b)) < 2 ^ 32) as Hw
      by (apply Z.mod_pos_bound; lia).
    rewrite IH; unfold scan_block, is_resident;
      destruct (isValid b); simpl;
      try destruct (matchTag b t is_secure && update_expansion); simpl;
      try assumption; try reflexivity.
    unfold Int.to_unsigned, Int.wrap.
    rewrite Z.add_assoc. now rewrite Z.add_mod_idemp_l by lia.
Qed.

Lemma scan_update_blk bs : forall st p,
  update_blk (scan_blocks t is_secure update_expansion st p bs)
  = match last (positions updating p bs) with
    | Some u => Some u
    | None => update_blk st
    end.
Proof.
  induction bs as [|b bs IH]; intros st p; simpl; [reflexivity|].
  rewrite IH. unfold scan_block.
  destruct (isValid b); simpl;
    [destruct (matchTag b t is_secure && update_expansion); simpl|];
    try reflexivity.
  rewrite last_cons. now destruct (last _).
Qed.

Lemma scan_replacement bs : forall st p,
  replacement (scan_blocks t is_secure update_expansion st p bs)
  = match last (positions (fun b => negb (resident b)) p bs) with
    | Some r => Some r
    | None => replacement st
    end.
Proof.
  induction bs as [|b bs IH]; intros st p; simpl; [reflexivity|].
  rewrite IH. unfold scan_block, is_resident.
  destruct (isValid b); simpl;
    [destruct (matchTag b t is_secure && update_expansion); simpl|];
    try reflexivity; rewrite last_cons; now destruct (last _).
Qed.

(** The block chosen during the loop, when it is not the block to
    update, has been pushed onto [evicts]. *)
Lemma scan_replacement_evicted bs : forall st p r,
  (forall r, replacement st = Some r -> update_blk st = None -> r ∈ evicts st) ->
  replacement (scan_blocks t is_secure update_expansion st p bs) = Some r ->
  update_blk (scan_blocks t is_secure update_expansion st p bs) = None ->
  r ∈ evicts (scan_blocks t is_secure update_expansion st p bs).
Proof.
  induction bs as [|b bs IH]; intros st p r Hst; simpl; [apply Hst|].
  apply IH. intros r'. unfold scan_block.
  destruct (isValid b); simpl;
    [destruct (matchTag b t is_secure && update_expansion); simpl|].
  - discriminate.
  - apply Hst.
  - intros [= ->] _. apply elem_of_app. right. now apply list_elem_of_singleton.
Qed.

End Scan.

(** ** The entry constructor *)

(** C10: a newly constructed entry has compressed size 0, is marked
    uncompressed and has coherence state 'I', whatever its position
    members hold; so it satisfies the invariant that an entry that is not
    valid has coherence state Invalid. *)
Theorem ReplaceableEntry_new_state (set0 way0 : Z) (is_valid : bool) :
  let e := Entry.ReplaceableEntry_new set0 way0 in
  Entry.getCompressedSize e = 0
  /\ Entry.getCompressionStatus e = false
  /\ Entry.getCoherenceState e = "I"%char
  /\ Entry.coherence_inv is_valid e.
Proof.
  simpl. repeat split.
Qed.

(** ** findCompressedDataReplacement *)

Lemma highest_index_picks : picks_candidate highest_index.
Proof.
  intros c v. destruct c as [|p ps]; simpl; [discriminate|].
  intros [= <-]. induction ps as [|q ps IH]; simpl.
  - apply list_elem_of_here.
  - destruct (Nat.max_spec q (foldr Nat.max p ps)) as [[_ ->] | [_ ->]].
    + apply elem_of_cons in IH as [-> | IH].
      * apply list_elem_of_here.
      * do 2 apply list_elem_of_further. exact IH.
    + apply list_elem_of_further, list_elem_of_here.
Qed.

Lemma positions_all keep bs : forall p,
  Forall (fun b => keep b = true) bs -> positions keep p bs = seq p (length bs).
Proof.
  induction bs as [|b bs IH]; intros p Hall; simpl; [reflexivity|].
  inversion Hall as [|? ? Hb Hbs]; subst. now rewrite Hb, IH.
Qed.

Lemma positions_none keep bs : forall p,
  Forall (fun b => keep b = false) bs -> positions keep p bs = [].
Proof.
  induction bs as [|b bs IH]; intros p Hall; simpl; [reflexivity|].
  inversion Hall as [|? ? Hb Hbs]; subst. now rewrite Hb, IH.
Qed.

(** C9: on a set whose entries are all invalid, with a request of at most
    32 segments, the policy is never asked, every entry of the set is
    evicted in way order, and the target is the entry of the highest way. *)
Theorem all_invalid_no_victim getVictim ip blocks addr is_secure req_size
    update_expansion :
  blocks <> [] ->
  Forall (fun b => isValid b = false) blocks ->
  0 <= req_size -> (req_size + 63) / 64 <= 32 ->
  findCompressedDataReplacement getVictim ip blocks addr is_secure req_size
    [] update_expansion
  = Some {| target := (length blocks - 1)%nat;
            evicted := seq 0 (length blocks);
            victim_calls := [] |}.
Proof.
  intros Hne Hall Hreq Hneed.
  assert (req_size + 63 < 33 * 64) as Hlt.
  { destruct (Z_lt_le_dec (req_size + 63) (33 * 64)) as [|Hge]; [assumption|].
    apply (Z.div_le_mono _ _ 64) in Hge; [|lia].
    rewrite Z.div_mul in Hge by lia. lia. }
  set (t := Indexing.extractTag ip addr).
  assert (Forall (fun b => is_free b = true) blocks) as Hfree.
  { eapply Forall_impl; [exact Hall|]. intros b Hb. unfold is_free.
    simpl in Hb. now rewrite Hb. }
  assert (Forall (fun b => is_resident t is_secure update_expansion b = false)
            blocks) as Hnores.
  { eapply Forall_impl; [exact Hall|]. intros b Hb. unfold is_resident.
    simpl in Hb. now rewrite Hb. }
  assert (Forall (fun b => negb (is_resident t is_secure update_expansion b) = true)
            blocks) as Hnr.
  { eapply Forall_impl; [exact Hnores|]. intros b Hb. simpl in Hb. now rewrite Hb. }
  unfold findCompressedDataReplacement. fold t.
  set (st := scan_blocks t is_secure update_expansion (scan_init []) 0%nat blocks).
  assert (valid_blocks st = []) as Hvb.
  { unfold st. rewrite scan_valid_blocks. simpl. now apply positions_none. }
  assert (evicts st = seq 0 (length blocks)) as Hev.
  { unfold st. rewrite scan_evicts. simpl. now apply positions_all. }
  assert (segments st = 0) as Hseg.
  { unfold st. rewrite scan_segments by (simpl; lia). simpl.
    replace (segments_of _ blocks) with 0; [reflexivity|].
    clear -Hnores. induction Hnores as [|b bs Hb _ IH]; simpl; [reflexivity|].
    rewrite Hb. lia. }
  assert (replacement st = Some (length blocks - 1)%nat) as Hrep.
  { unfold st. rewrite scan_replacement.
    rewrite (positions_all _ _ _ Hnr).
    destruct blocks as [|b bs]; [contradiction|].
    rewrite last_lookup, length_seq. simpl length. simpl Nat.pred.
    rewrite lookup_seq_lt by (simpl; lia). simpl. f_equal. lia. }
  assert (update_blk st = None) as Hupd.
  { unfold st. rewrite scan_update_blk.
    rewrite positions_none; [reflexivity|].
    eapply Forall_impl; [exact Hall|]. intros b Hb. simpl in Hb. now rewrite Hb. }
  rewrite Hseg, Hrep, Hvb, Hev, Hupd.
  rewrite extra_segments0_small by lia.
  unfold max_set_segments.
  replace (0 <? (req_size + 63) / 64 - (32 - 0)) with false
    by (symmetry; apply Z.ltb_ge; lia).
  simpl.
  destruct (blocks !! (length blocks - 1)%nat) as [b1|] eqn:Hb1.
  2:{ apply lookup_ge_None in Hb1. destruct blocks; [contradiction|]. simpl in Hb1. lia. }
  simpl. unfold large_blocks. simpl.
  destruct (0 <? extra_less _ b1); simpl; rewrite Hb1; reflexivity.
Qed.

Lemma all_invalid_no_victim_witness :
  findCompressedDataReplacement highest_index ip4 (replicate 4 CacheBlk_new)
    0 false 2048 [] false
  = Some {| target := 3%nat; evicted := [0; 1; 2; 3]%nat; victim_calls := [] |}.
Proof.
  apply (all_invalid_no_victim highest_index ip4 (replicate 4 CacheBlk_new)
           0 false 2048 false).
  - discriminate.
  - repeat constructor.
  - lia.
  - vm_compute. discriminate.
Defined.

(** *** Anatomy of a successful call *)

Section Anatomy.

Variable getVictim : list ptr -> option ptr.
Variables (ip : Indexing.BaseIndexingPolicy) (blocks : list CacheBlk).
Variables (addr : Z) (is_secure : bool) (req_size : Z).
Variables (evicts0 : list ptr) (update_expansion : bool).

Local Abbreviation t := (Indexing.extractTag ip addr).
Local Abbreviation st := (scanned ip blocks addr is_secure update_expansion evicts0).
Local Abbreviation extra := (extra_segments0 req_size (segments st)).

Lemma find_inv d :
  findCompressedDataReplacement getVictim ip blocks addr is_secure req_size
    evicts0 update_expansion = Some d ->
  exists repl1 evicts1 calls1 b1 repl2,
    first_stage getVictim st extra repl1 evicts1 calls1
    /\ blocks !! repl1 = Some b1
    /\ second_stage getVictim blocks st repl1 evicts1 calls1
         (extra_less extra b1) repl2 (evicted d) (victim_calls d)
    /\ target d = default repl2 (update_blk st).
Proof.
  unfold findCompressedDataReplacement.
  fold t. change (scan_blocks t is_secure update_expansion
                    (scan_init evicts0) 0%nat blocks) with st.
  fold extra. intros H.
  destruct ((0 <? extra) || negb (bool_decide (is_Some (replacement st))))
    eqn:Hfirst.
  - destruct (getVictim (valid_blocks st)) as [v|] eqn:Hv; [|discriminate].
    simpl in H.
    destruct (blocks !! v) as [b1|] eqn:Hb1; [|discriminate]. simpl in H.
    assert (first_stage getVictim st extra v (evicts st ++ [v])
              [(FirstVictim, valid_blocks st)]) as Hfs.
    { left. split; [|auto].
      apply orb_true_iff in Hfirst as [Hpos | Hnone].
      - left. now apply Z.ltb_lt.
      - right. apply negb_true_iff, bool_decide_eq_false in Hnone.
        destruct (replacement st); [|reflexivity].
        exfalso. apply Hnone. eauto. }
    destruct (0 <? extra_less extra b1) eqn:Hpos1.
    + destruct (large_blocks blocks (valid_blocks st) (extra_less extra b1) v)
        as [|q qs] eqn:Hlarge.
      * simpl in H. rewrite Hb1 in H. simpl in H. injection H as <-.
        exists v, (evicts st ++ [v]), [(FirstVictim, valid_blocks st)], b1, v.
        repeat split; try assumption. right. simpl. rewrite Hlarge.
        split; [|auto]. intros [_ Hne]. now apply Hne.
      * destruct (getVictim (q :: qs)) as [v2|] eqn:Hv2; [|discriminate].
        simpl in H.
        destruct (blocks !! v2) as [b2|] eqn:Hb2; [|discriminate].
        simpl in H. injection H as <-.
        exists v, (evicts st ++ [v]), [(FirstVictim, valid_blocks st)], b1, v2.
        repeat split; try assumption. left. simpl. rewrite Hlarge.
        apply Z.ltb_lt in Hpos1. repeat split; auto.
    + simpl in H. rewrite Hb1 in H. simpl in H. injection H as <-.
      exists v, (evicts st ++ [v]), [(FirstVictim, valid_blocks st)], b1, v.
      repeat split; try assumption. right. simpl.
      split; [|auto]. intros [Hp _]. apply Z.ltb_ge in Hpos1. lia.
  - destruct (replacement st) as [r|] eqn:Hr; [|discriminate]. simpl in H.
    apply orb_false_iff in Hfirst as [Hle _]. apply Z.ltb_ge in Hle.
    destruct (blocks !! r) as [b1|] eqn:Hb1; [|discriminate]. simpl in H.
    assert (first_stage getVictim st extra r (evicts st) []) as Hfs.
    { right. rewrite Hr. split; [|auto]. intros [Hp | Hn]; [lia|discriminate]. }
    destruct (0 <? extra_less extra b1) eqn:Hpos1.
    + destruct (large_blocks blocks (valid_blocks st) (extra_less extra b1) r)
        as [|q qs] eqn:Hlarge.
      * simpl in H. rewrite Hb1 in H. simpl in H. injection H as <-.
        exists r, (evicts st), [], b1, r.
        repeat split; try assumption. right. simpl. rewrite Hlarge.
        split; [|auto]. intros [_ Hne]. now apply Hne.
      * destruct (getVictim (q :: qs)) as [v2|] eqn:Hv2; [|discriminate].
        simpl in H.
        destruct (blocks !! v2) as [b2|] eqn:Hb2; [|discriminate].
        simpl in H. injection H as <-.
        exists r, (evicts st), [], b1, v2.
        repeat split; try assumption. left. simpl. rewrite Hlarge.
        apply Z.ltb_lt in Hpos1. repeat split; auto.
    + simpl in H. rewrite Hb1 in H. simpl in H. injection H as <-.
      exists r, (evicts st), [], b1, r.
      repeat split; try assumption. right. simpl.
      split; [|auto]. intros [Hp _]. apply Z.ltb_ge in Hpos1. lia.
Qed.

End Anatomy.

(** *** The partition of the candidates *)

Section Partition.

Variable getVictim : list ptr -> option ptr.
Variables (ip : Indexing.BaseIndexingPolicy) (blocks : list CacheBlk).
Variables (addr : Z) (is_secure : bool) (req_size : Z).
Variables (evicts0 : list ptr) (update_expansion : bool).

Local Abbreviation t := (Indexing.extractTag ip addr).
Local Abbreviation st := (scanned ip blocks addr is_secure update_expansion evicts0).
Local Abbreviation resident := (positions (is_resident t is_secure update_expansion) 0 blocks).
Local Abbreviation free := (positions is_free 0 blocks).

Lemma scanned_valid_blocks : valid_blocks st = resident.
Proof. unfold st, scanned. now rewrite scan_valid_blocks. Qed.

Lemma scanned_evicts : evicts st = evicts0 ++ free.
Proof. unfold st, scanned. now rewrite scan_evicts. Qed.

Lemma scanned_segments :
  segments st
  = Int.to_unsigned (segments_of (is_resident t is_secure update_expansion) blocks).
Proof. unfold st, scanned. now rewrite scan_segments by (simpl; lia). Qed.

Lemma large_blocks_subseteq vb extra1 repl1 :
  large_blocks blocks vb extra1 repl1 ⊆ vb.
Proof.
  unfold large_blocks. intros p Hp.
  apply list_elem_of_In, filter_In in Hp as [Hp _]. now apply list_elem_of_In.
Qed.

(** Every query to the policy offers resident blocks, and the first
    query offers them all. *)
Lemma victim_calls_resident d :
  findCompressedDataReplacement getVictim ip blocks addr is_secure req_size
    evicts0 update_expansion = Some d ->
  forall s c, (s, c) ∈ victim_calls d ->
    c ⊆ resident /\ (s = FirstVictim -> c = resident).
Proof.
  intros Hd s c Hc.
  destruct (find_inv _ _ _ _ _ _ _ _ _ Hd)
    as (repl1 & evicts1 & calls1 & b1 & repl2 & Hfs & Hb1 & Hss & _).
  unfold first_stage in Hfs. unfold second_stage in Hss.
  fold st in Hfs, Hss. rewrite scanned_valid_blocks in Hfs, Hss.
  assert (forall s c, (s, c) ∈ calls1 -> s = FirstVictim /\ c = resident) as H1.
  { intros s' c' Hin.
    destruct Hfs as [(_ & _ & _ & ->) | (_ & _ & _ & ->)].
    - apply list_elem_of_singleton in Hin. now injection Hin as -> ->.
    - inversion Hin. }
  destruct Hss as [(_ & _ & _ & _ & Hcalls) | (_ & _ & _ & Hcalls)];
    rewrite Hcalls in Hc.
  - apply elem_of_app in Hc as [Hc | Hc].
    + apply H1 in Hc as [-> ->]. split; [reflexivity | auto].
    + apply list_elem_of_singleton in Hc. injection Hc as -> ->.
      split; [apply large_blocks_subseteq | discriminate].
  - apply H1 in Hc as [-> ->]. split; [reflexivity | auto].
Qed.

(** The vector [evicts] on return: what the caller passed, the free
    blocks, then the victims. *)
Lemma evicted_shape d :
  findCompressedDataReplacement getVictim ip blocks addr is_secure req_size
    evicts0 update_expansion = Some d ->
  exists victims,
    evicted d = evicts0 ++ free ++ victims
    /\ forall v, v ∈ victims ->
         exists s c, (s, c) ∈ victim_calls d /\ getVictim c = Some v.
Proof.
  intros Hd.
  destruct (find_inv _ _ _ _ _ _ _ _ _ Hd)
    as (repl1 & evicts1 & calls1 & b1 & repl2 & Hfs & Hb1 & Hss & _).
  unfold first_stage in Hfs. unfold second_stage in Hss.
  fold st in Hfs, Hss. rewrite scanned_evicts in Hfs.
  assert (exists victims1,
            evicts1 = evicts0 ++ free ++ victims1
            /\ forall v, v ∈ victims1 ->
                 exists s c, (s, c) ∈ calls1 /\ getVictim c = Some v)
    as (victims1 & -> & Hv1).
  { destruct Hfs as [(_ & Hv & -> & ->) | (_ & _ & -> & ->)].
    - exists [repl1]. split; [now rewrite <- !app_assoc|].
      intros v ->%list_elem_of_singleton.
      exists FirstVictim, (valid_blocks st). split; [apply list_elem_of_here | exact Hv].
    - exists []. split; [now rewrite app_nil_r|]. intros v Hin. inversion Hin. }
  destruct Hss as [(_ & _ & Hv & -> & ->) | (_ & _ & -> & ->)].
  - exists (victims1 ++ [repl2]). split; [now rewrite <- !app_assoc|].
    intros v [Hin | ->%list_elem_of_singleton]%elem_of_app.
    + destruct (Hv1 v Hin) as (s & c & Hc & Hg). exists s, c.
      split; [apply elem_of_app; now left | exact Hg].
    + eexists LargeVictim, _. split; [|exact Hv].
      apply elem_of_app. right. apply list_elem_of_here.
  - exists victims1. split; [reflexivity | exact Hv1].
Qed.

(** C2, as the code has it: the resident list is exactly the valid
    blocks that are not the matching block of an update, in way order,
    and [segments] counts exactly their segments (modulo 2^32); a valid
    matching block is left out only when [update_expansion] is set, and is
    resident otherwise. Every list offered to [getVictim] is made of
    resident blocks, the first one is the whole resident list, and every
    invalid block is appended to [evicts]. *)
Theorem partition_of_candidates d :
  findCompressedDataReplacement getVictim ip blocks addr is_secure req_size
    evicts0 update_expansion = Some d ->
  (forall p, p ∈ valid_blocks st <->
     exists b, blocks !! p = Some b /\ isValid b = true
               /\ (matchTag b t is_secure && update_expansion) = false)
  /\ valid_blocks st = resident
  /\ segments st
     = Int.to_unsigned
         (segments_of (is_resident t is_secure update_expansion) blocks)
  /\ (forall s c, (s, c) ∈ victim_calls d ->
        c ⊆ valid_blocks st /\ (s = FirstVictim -> c = valid_blocks st))
  /\ (exists victims, evicted d = evicts0 ++ free ++ victims)
  /\ (forall p, p ∈ free <->
        exists b, blocks !! p = Some b /\ isValid b = false).
Proof.
  intros Hd. repeat split.
  - rewrite scanned_valid_blocks. unfold resident.
    intros (_ & b & Hb & Hk)%elem_of_positions.
    rewrite Nat.sub_0_r in Hb. exists b. split; [exact Hb|].
    unfold is_resident in Hk. apply andb_true_iff in Hk as [Hv Hm].
    now apply negb_true_iff in Hm.
  - intros (b & Hb & Hv & Hm). rewrite scanned_valid_blocks. unfold resident.
    apply elem_of_positions. split; [lia|]. exists b.
    rewrite Nat.sub_0_r. split; [exact Hb|].
    unfold is_resident. now rewrite Hv, Hm.
  - apply scanned_valid_blocks.
  - apply scanned_segments.
  - rewrite scanned_valid_blocks. now apply (victim_calls_resident d Hd s c).
  - rewrite scanned_valid_blocks. now apply (victim_calls_resident d Hd s c).
  - destruct (evicted_shape d Hd) as (victims & Hev & _). now exists victims.
  - intros (_ & b & Hb & Hk)%elem_of_positions.
    rewrite Nat.sub_0_r in Hb. exists b. split; [exact Hb|].
    unfold is_free in Hk. now apply negb_true_iff in Hk.
  - intros (b & Hb & Hv). apply elem_of_positions. split; [lia|]. exists b.
    rewrite Nat.sub_0_r. split; [exact Hb|]. unfold is_free. now rewrite Hv.
Qed.

End Partition.

(** A valid block matching the request is resident when no update is
    asked for: the second half of C2 as the specification words it does
    not hold. *)
Lemma matched_resident_without_update : ~ matched_never_resident.
Proof.
  intros H.
  apply (H ip4 [blk true 9 128] (64 * 9) false false 0%nat (blk true 9 128));
    [reflexivity | reflexivity | ].
  vm_compute. apply list_elem_of_here.
Qed.

Lemma partition_of_candidates_witness :
  valid_blocks
    (scanned ip4 [blk false 0 0; blk true 1 128; blk true 2 128; blk true 9 64]
       (64 * 9) false true [])
  = [1; 2]%nat.
Proof.
  exact (proj1 (proj2
    (partition_of_candidates highest_index ip4
       [blk false 0 0; blk true 1 128; blk true 2 128; blk true 9 64]
       (64 * 9) false 192 [] true
       {| target := 3%nat; evicted := [0%nat]; victim_calls := [] |}
       eq_refl))).
Defined.

(** *** When the policy is consulted, and what becomes the target *)

Section Consulted.

Variable getVictim : list ptr -> option ptr.
Variables (ip : Indexing.BaseIndexingPolicy) (blocks : list CacheBlk).
Variables (addr : Z) (is_secure : bool) (req_size : Z).
Variables (evicts0 : list ptr) (update_expansion : bool).

Local Abbreviation t := (Indexing.extractTag ip addr).
Local Abbreviation st := (scanned ip blocks addr is_secure update_expansion evicts0).
Local Abbreviation extra := (extra_segments0 req_size (segments st)).

(** C3, as the code has it: the first query to the policy is made exactly
    when the shortfall is positive or the loop chose no block; the victim
    of every query is appended to [evicts]; the matching block of an
    update is the target whatever the policy returns; without one, the
    target is the victim of the last query, which replaces a free block
    chosen in the loop, and that free block only when no query is made. *)
Theorem victim_consulted d :
  findCompressedDataReplacement getVictim ip blocks addr is_secure req_size
    evicts0 update_expansion = Some d ->
  ((exists c, (FirstVictim, c) ∈ victim_calls d)
     <-> (0 < extra \/ replacement st = None))
  /\ (forall s c, (s, c) ∈ victim_calls d ->
        exists v, getVictim c = Some v /\ v ∈ evicted d)
  /\ (forall u, update_blk st = Some u -> target d = u)
  /\ (update_blk st = None ->
        match last (victim_calls d) with
        | Some (_, c) => getVictim c = Some (target d)
        | None => replacement st = Some (target d)
        end).
Proof.
  intros Hd.
  destruct (find_inv _ _ _ _ _ _ _ _ _ Hd)
    as (repl1 & evicts1 & calls1 & b1 & repl2 & Hfs & Hb1 & Hss & Htarget).
  unfold first_stage in Hfs. unfold second_stage in Hss.
  fold st in Hfs, Hss, Htarget. fold extra in Hfs, Hss.
  repeat split.
  - intros [c Hc].
    destruct Hfs as [(Hcond & _) | (_ & _ & _ & ->)]; [exact Hcond|].
    destruct Hss as [(_ & _ & _ & _ & Hcalls) | (_ & _ & _ & Hcalls)];
      rewrite Hcalls in Hc.
    + apply list_elem_of_singleton in Hc. discriminate.
    + inversion Hc.
  - intros Hcond.
    destruct Hfs as [(_ & _ & _ & ->) | (Hncond & _)]; [|contradiction].
    exists (valid_blocks st).
    destruct Hss as [(_ & _ & _ & _ & ->) | (_ & _ & _ & ->)];
      apply list_elem_of_here.
  - intros s c Hc.
    assert (forall s c, (s, c) ∈ calls1 ->
              exists v, getVictim c = Some v /\ v ∈ evicts1) as H1.
    { intros s' c' Hin.
      destruct Hfs as [(_ & Hv & -> & ->) | (_ & _ & _ & ->)];
        [|inversion Hin].
      apply list_elem_of_singleton in Hin. injection Hin as -> ->.
      exists repl1. split; [exact Hv|].
      apply elem_of_app. right. apply list_elem_of_here. }
    destruct Hss as [(_ & _ & Hv & -> & Hcalls) | (_ & _ & -> & Hcalls)];
      rewrite Hcalls in Hc.
    + apply elem_of_app in Hc as [Hc | Hc].
      * destruct (H1 s c Hc) as (v & Hg & Hin). exists v.
        split; [exact Hg | apply elem_of_app; now left].
      * apply list_elem_of_singleton in Hc. injection Hc as -> ->.
        exists repl2. split; [exact Hv|].
        apply elem_of_app. right. apply list_elem_of_here.
    + exact (H1 s c Hc).
  - intros u Hu. rewrite Htarget, Hu. reflexivity.
  - intros Hu. rewrite Htarget, Hu. simpl.
    destruct Hss as [(_ & _ & Hv & _ & ->) | (_ & -> & _ & ->)].
    + rewrite last_snoc. exact Hv.
    + destruct Hfs as [(_ & Hv & _ & ->) | (_ & Hr & _ & ->)]; simpl; assumption.
Qed.

(** The block to update is the one returned. *)
Lemma target_of_update d u :
  findCompressedDataReplacement getVictim ip blocks addr is_secure req_size
    evicts0 update_expansion = Some d ->
  update_blk st = Some u -> target d = u.
Proof.
  intros Hd Hu.
  destruct (find_inv _ _ _ _ _ _ _ _ _ Hd)
    as (repl1 & evicts1 & calls1 & b1 & repl2 & _ & _ & _ & Htarget).
  fold st in Htarget. now rewrite Htarget, Hu.
Qed.

(** Without a block to update, the target has been pushed onto
    [evicts]: as a free block, or as a victim. *)
Lemma target_evicted d :
  findCompressedDataReplacement getVictim ip blocks addr is_secure req_size
    evicts0 update_expansion = Some d ->
  update_blk st = None -> target d ∈ evicted d.
Proof.
  intros Hd Hu.
  destruct (find_inv _ _ _ _ _ _ _ _ _ Hd)
    as (repl1 & evicts1 & calls1 & b1 & repl2 & Hfs & Hb1 & Hss & Htarget).
  unfold first_stage in Hfs. unfold second_stage in Hss.
  fold st in Hfs, Hss, Htarget. rewrite Htarget, Hu. simpl.
  destruct Hss as [(_ & _ & _ & -> & _) | (_ & -> & -> & _)].
  - apply elem_of_app. right. apply list_elem_of_here.
  - destruct Hfs as [(_ & _ & -> & _) | (_ & Hr & -> & _)].
    + apply elem_of_app. right. apply list_elem_of_here.
    + unfold st, scanned in *. eapply scan_replacement_evicted; eauto.
      simpl. discriminate.
Qed.

(** The block to update is a valid block that matches, and an update
    was asked for. *)
Lemma update_blk_matches u :
  update_blk st = Some u ->
  update_expansion = true
  /\ exists b, blocks !! u = Some b /\ matchTag b t is_secure = true.
Proof.
  unfold st, scanned. rewrite scan_update_blk. simpl.
  destruct (last _) as [u'|] eqn:Hlast; [|discriminate].
  intros [= ->]. apply last_Some_elem_of in Hlast.
  apply elem_of_positions in Hlast as (_ & b & Hb & Hk).
  rewrite Nat.sub_0_r in Hb.
  apply andb_true_iff in Hk as [_ Hk]. apply andb_true_iff in Hk as [Hm Hue].
  split; [exact Hue|]. now exists b.
Qed.

End Consulted.

(** A free block chosen in the loop does not stay the target when the
    policy is consulted: that part of C3 as the specification words it
    does not hold. *)
Lemma free_target_replaced : ~ chosen_target_kept.
Proof.
  intros H.
  destruct (H highest_index ip4 [blk false 0 0; blk true 1 2048] (64 * 9)
              false 64 false
              {| target := 1%nat; evicted := [0; 1]%nat;
                 victim_calls := [(FirstVictim, [1%nat])] |}
              0%nat eq_refl eq_refl) as [Heq | Heq];
    discriminate Heq.
Qed.

Lemma victim_consulted_witness :
  let blocks := [blk false 0 0; blk true 1 2048] in
  let d := {| target := 1%nat; evicted := [0; 1]%nat;
              victim_calls := [(FirstVictim, [1%nat])] |} in
  let st := scanned ip4 blocks (64 * 9) false false [] in
  findCompressedDataReplacement highest_index ip4 blocks (64 * 9) false 64
    [] false = Some d
  /\ ((exists c, (FirstVictim, c) ∈ victim_calls d)
      <-> (0 < extra_segments0 64 (segments st) \/ replacement st = None)).
Proof.
  split; [reflexivity|].
  exact (proj1
    (victim_consulted highest_index ip4 [blk false 0 0; blk true 1 2048]
       (64 * 9) false 64 [] false
       {| target := 1%nat; evicted := [0; 1]%nat;
          victim_calls := [(FirstVictim, [1%nat])] |}
       eq_refl)).
Defined.

(** *** The target and the evicted blocks *)

(** C4, as the code has it: for a policy that returns one of the
    candidates it is offered, the target is outside the evicted blocks
    exactly when it is the matching block of an update; a target that is
    a free block or a victim of the policy is itself one of the evicted
    blocks. *)
Theorem target_evicted_unless_update getVictim ip blocks addr is_secure
    req_size update_expansion d :
  picks_candidate getVictim ->
  findCompressedDataReplacement getVictim ip blocks addr is_secure req_size
    [] update_expansion = Some d ->
  target d ∉ evicted d
  <-> (update_expansion = true
       /\ exists b, blocks !! target d = Some b
                    /\ matchTag b (Indexing.extractTag ip addr) is_secure = true).
Proof.
  intros Hpick Hd.
  set (t := Indexing.extractTag ip addr).
  set (st := scanned ip blocks addr is_secure update_expansion []).
  split.
  - intros Hnotin.
    destruct (update_blk st) as [u|] eqn:Hu.
    + rewrite (target_of_update _ _ _ _ _ _ _ _ _ _ Hd Hu).
      eapply update_blk_matches. exact Hu.
    + exfalso. apply Hnotin. eapply target_evicted; eauto.
  - intros (Hue & b & Hb & Hm) Hin.
    destruct (evicted_shape _ _ _ _ _ _ _ _ _ Hd) as (victims & Hev & Hvict).
    rewrite Hev in Hin. simpl in Hin.
    assert (isValid b = true) as Hvalid.
    { unfold matchTag in Hm. apply andb_true_iff in Hm as [Hm _].
      now apply andb_true_iff in Hm as [Hm _]. }
    apply elem_of_app in Hin as [Hfree | Hvic].
    + apply elem_of_positions in Hfree as (_ & b' & Hb' & Hk).
      rewrite Nat.sub_0_r, Hb in Hb'. injection Hb' as <-.
      unfold is_free in Hk. rewrite Hvalid in Hk. discriminate.
    + destruct (Hvict _ Hvic) as (s & c & Hc & Hg).
      apply Hpick in Hg.
      destruct (victim_calls_resident _ _ _ _ _ _ _ _ _ Hd s c Hc) as [Hsub _].
      apply Hsub in Hg.
      apply elem_of_positions in Hg as (_ & b' & Hb' & Hk).
      rewrite Nat.sub_0_r, Hb in Hb'. injection Hb' as <-.
      unfold is_resident in Hk. fold t in Hk. rewrite Hm, Hue, Hvalid in Hk.
      discriminate.
Qed.

Lemma target_evicted_unless_update_witness :
  let blocks := [blk true 1 1280; blk true 2 640; blk true 3 320; blk true 9 64] in
  let d := {| target := 3%nat; evicted := [2; 1]%nat;
              victim_calls := [(FirstVictim, [0; 1; 2]%nat);
                               (LargeVictim, [0; 1]%nat)] |} in
  findCompressedDataReplacement highest_index ip4 blocks (64 * 9) false 192
    [] true = Some d
  /\ (target d ∉ evicted d
      <-> (true = true
           /\ exists b, blocks !! target d = Some b
                        /\ matchTag b (Indexing.extractTag ip4 (64 * 9)) false = true)).
Proof.
  split; [reflexivity|].
  exact (target_evicted_unless_update highest_index ip4
           [blk true 1 1280; blk true 2 640; blk true 3 320; blk true 9 64]
           (64 * 9) false 192 true
           {| target := 3%nat; evicted := [2; 1]%nat;
              victim_calls := [(FirstVictim, [0; 1; 2]%nat);
                               (LargeVictim, [0; 1]%nat)] |}
           highest_index_picks eq_refl).
Defined.

(** A victim of the policy is the target and an evicted block at once,
    and it is valid: C4 as the specification words it does not hold. *)
Lemma victim_is_target_and_evicted : ~ target_evicted_only_if_free.
Proof.
  intros H.
  destruct (H highest_index ip4 [blk true 1 64] (64 * 9) false 64 false
              {| target := 0%nat; evicted := [0%nat];
                 victim_calls := [(FirstVictim, [0%nat])] |}
              highest_index_picks eq_refl (list_elem_of_here _ _))
    as (b & Hb & Hv).
  injection Hb as <-. discriminate Hv.
Qed.

(** *** The forced multi-eviction scenario *)

(** With way 3 the matching block of an update, the scenario of C1 ends
    with way 3 as the target, not way 1: the scenario as the specification
    words it does not hold. *)
Lemma forced_multi_eviction_differs : ~ forced_multi_eviction_as_specified.
Proof.
  intros H.
  destruct (H ip4 (blk true 1 1280) (blk true 2 640) (blk true 3 320)
              (blk true 9 64) (64 * 9) false 192 true)
    as (d & Hd & Htarget & _).
  - repeat constructor.
  - repeat constructor.
  - reflexivity.
  - reflexivity.
  - reflexivity.
  - reflexivity.
  - lia.
  - reflexivity.
  - vm_compute in Hd. injection Hd as <-. discriminate Htarget.
Qed.

Lemma to_int_periodic x s : s mod 2 ^ 32 = 0 -> Int.to_int (x - s) = Int.to_int x.
Proof.
  intros Hs. unfold Int.to_int, Int.signed, Int.wrap.
  replace ((x - s) mod 2 ^ 32) with (x mod 2 ^ 32); [reflexivity|].
  rewrite Zminus_mod, Hs, Z.sub_0_r. now rewrite Z.mod_mod by lia.
Qed.

(** C1, as the code has it: in the scenario (four valid ways, ways 0 to 2
    non-matching with 20, 10 and 5 segments, 35 segments occupied, 3
    requested, the highest candidate as victim) the policy is asked twice.
    When way 3 is the matching block of an update, the candidates are
    ways 0 to 2, then ways 0 and 1, ways 2 and 1 are evicted and way 3,
    the block to update, is returned. Otherwise way 3 is a resident block
    of no segment: it is the first victim, ways 3 and 1 are evicted and
    way 1 is returned. *)
Theorem forced_multi_eviction ip b0 b1 b2 b3 addr is_secure req_size
    update_expansion :
  let t := Indexing.extractTag ip addr in
  let blocks := [b0; b1; b2; b3] in
  Forall (fun b => isValid b = true) blocks ->
  Forall (fun b => matchTag b t is_secure = false) [b0; b1; b2] ->
  segs (cSize b0) = 20 -> segs (cSize b1) = 10 -> segs (cSize b2) = 5 ->
  segments (scanned ip blocks addr is_secure update_expansion []) = 35 ->
  0 <= req_size -> (req_size + 63) / 64 = 3 ->
  findCompressedDataReplacement highest_index ip blocks addr is_secure
    req_size [] update_expansion
  = Some (if matchTag b3 t is_secure && update_expansion
          then {| target := 3%nat; evicted := [2; 1]%nat;
                  victim_calls := [(FirstVictim, [0; 1; 2]%nat);
                                   (LargeVictim, [0; 1]%nat)] |}
          else {| target := 1%nat; evicted := [3; 1]%nat;
                  victim_calls := [(FirstVictim, [0; 1; 2; 3]%nat);
                                   (LargeVictim, [0; 1]%nat)] |}).
Proof.
  intros t blocks Hvalid Hmatch Hs0 Hs1 Hs2 Hocc Hreq Hneed.
  apply Forall_cons in Hvalid as [Hv0 Hvalid].
  apply Forall_cons in Hvalid as [Hv1 Hvalid].
  apply Forall_cons in Hvalid as [Hv2 Hvalid].
  apply Forall_cons in Hvalid as [Hv3 _].
  apply Forall_cons in Hmatch as [Hm0 Hmatch].
  apply Forall_cons in Hmatch as [Hm1 Hmatch].
  apply Forall_cons in Hmatch as [Hm2 _].
  assert (req_size + 63 < 2 ^ 32) as Hlt.
  { destruct (Z_lt_le_dec (req_size + 63) (4 * 64)) as [|Hge]; [lia|].
    apply (Z.div_le_mono _ _ 64) in Hge; [|lia].
    rewrite Z.div_mul in Hge by lia. lia. }
  assert (is_resident t is_secure update_expansion b0 = true) as Hr0
    by (unfold is_resident; now rewrite Hv0, Hm0).
  assert (is_resident t is_secure update_expansion b1 = true) as Hr1
    by (unfold is_resident; now rewrite Hv1, Hm1).
  assert (is_resident t is_secure update_expansion b2 = true) as Hr2
    by (unfold is_resident; now rewrite Hv2, Hm2).
  assert (is_resident t is_secure update_expansion b3
          = negb (matchTag b3 t is_secure && update_expansion)) as Hr3
    by (unfold is_resident; now rewrite Hv3).
  unfold findCompressedDataReplacement. fold t.
  change (scan_blocks t is_secure update_expansion (scan_init []) 0%nat blocks)
    with (scanned ip blocks addr is_secure update_expansion []).
  set (st := scanned ip blocks addr is_secure update_expansion []) in *.
  assert (valid_blocks st
          = [0; 1; 2]%nat
            ++ (if matchTag b3 t is_secure && update_expansion then []
                else [3%nat])) as Hvb.
  { unfold st. rewrite scanned_valid_blocks. unfold blocks. simpl. fold t.
    rewrite Hr0, Hr1, Hr2, Hr3. simpl.
    now destruct (matchTag b3 t is_secure && update_expansion). }
  assert (update_blk st
          = if matchTag b3 t is_secure && update_expansion then Some 3%nat
            else None) as Hub.
  { unfold st, scanned. rewrite scan_update_blk. unfold blocks. simpl. fold t.
    rewrite Hv0, Hv1, Hv2, Hv3, Hm0, Hm1, Hm2. simpl.
    now destruct (matchTag b3 t is_secure && update_expansion). }
  assert (evicts st = []) as Hev.
  { unfold st. rewrite scanned_evicts. unfold blocks, is_free. simpl.
    now rewrite Hv0, Hv1, Hv2, Hv3. }
  assert (extra_segments0 req_size (segments st) = 6) as Hextra.
  { rewrite Hocc, extra_segments0_small by lia. rewrite Hneed. reflexivity. }
  assert (extra_less 6 b2 = 1) as Hx2
    by (unfold extra_less; rewrite Hs2; reflexivity).
  assert (large_blocks blocks [0; 1; 2]%nat 1 2 = [0; 1]%nat) as Hl2.
  { unfold large_blocks, blocks. cbn [List.filter app lookup list_lookup].
    rewrite Hs0, Hs1, Hs2. reflexivity. }
  assert (large_blocks blocks [0; 1; 2; 3]%nat 6 3 = [0; 1]%nat) as Hl3.
  { unfold large_blocks, blocks. cbn [List.filter app lookup list_lookup].
    rewrite Hs0, Hs1, Hs2. simpl Nat.eqb. simpl negb.
    rewrite andb_false_r. reflexivity. }
  rewrite Hextra, Hvb, Hev, Hub.
  change (0 <? 6) with true. cbn [orb].
  destruct (matchTag b3 t is_secure && update_expansion) eqn:Hupd.
  - cbn [app highest_index foldr Nat.max mbind option_bind].
    change (blocks !! 2%nat) with (Some b2). cbn [mbind option_bind].
    rewrite Hx2. change (0 <? 1) with true. cbv iota.
    rewrite Hl2. cbn [app highest_index foldr Nat.max mbind option_bind].
    change (blocks !! 1%nat) with (Some b1). reflexivity.
  - assert (extra_less 6 b3 = 6) as Hx3.
    { unfold extra_less. rewrite to_int_periodic; [reflexivity|].
      unfold st in Hocc. rewrite scanned_segments in Hocc.
      unfold blocks, segments_of in Hocc. cbn [foldr] in Hocc. fold t in Hocc.
      rewrite Hr0, Hr1, Hr2, Hr3, Hs0, Hs1, Hs2 in Hocc.
      cbn [negb] in Hocc.
      unfold Int.to_unsigned, Int.wrap in Hocc.
      replace (20 + (10 + (5 + (segs (cSize b3) + 0))))
        with (35 + segs (cSize b3)) in Hocc by ring.
      rewrite Zplus_mod in Hocc.
      pose proof (Z.mod_pos_bound (segs (cSize b3)) (2 ^ 32) ltac:(lia)) as Hb.
      change (35 mod 2 ^ 32) with 35 in Hocc.
      destruct (Z_lt_le_dec (35 + segs (cSize b3) mod 2 ^ 32) (2 ^ 32)) as [Hlo|Hhi].
      - rewrite Z.mod_small in Hocc by lia. lia.
      - exfalso.
        assert ((35 + segs (cSize b3) mod 2 ^ 32) mod 2 ^ 32
                = 35 + segs (cSize b3) mod 2 ^ 32 - 2 ^ 32) as Heq
          by (symmetry; apply Z.mod_unique with (q := 1); lia).
        lia. }
    cbn [app highest_index foldr Nat.max mbind option_bind].
    change (blocks !! 3%nat) with (Some b3). cbn [mbind option_bind].
    rewrite Hx3. change (0 <? 6) with true. cbv iota.
    rewrite Hl3. cbn [app highest_index foldr Nat.max mbind option_bind].
    change (blocks !! 1%nat) with (Some b1). reflexivity.
Qed.

Lemma forced_multi_eviction_witness :
  findCompressedDataReplacement highest_index ip4
    [blk true 1 1280; blk true 2 640; blk true 3 320; blk true 9 64]
    (64 * 9) false 192 [] true
  = Some {| target := 3%nat; evicted := [2; 1]%nat;
            victim_calls := [(FirstVictim, [0; 1; 2]%nat);
                             (LargeVictim, [0; 1]%nat)] |}.
Proof.
  apply (forced_multi_eviction ip4 (blk true 1 1280) (blk true 2 640)
           (blk true 3 320) (blk true 9 64) (64 * 9) false 192 true).
  - repeat constructor.
  - repeat constructor.
  - reflexivity.
  - reflexivity.
  - reflexivity.
  - reflexivity.
  - lia.
  - reflexivity.
Defined.

(** ** The segment budget *)

(** Up to the last request the budget of 32 segments is respected. *)
Lemma budget_before_last_install :
  segments_after highest_index ip4 4 (take 3 growth_requests) = Some 30
  /\ segments_after highest_index (ip_ways 17) 17 (take 17 small_requests)
     = Some 32.
Proof. split; vm_compute; reflexivity. Qed.

(** C5 does not hold of the code. From an empty four-way set, three
    installs of 10 segments and one of 23 leave 43 segments in the set: the
    first victim frees 10 of the 21 segments missing, no other block has
    the 11 still missing, and nothing more is evicted. The same happens with
    sizes that fit eight bits, in a set of seventeen ways: 35 segments. *)
Theorem budget_exceeded :
  segments_after highest_index ip4 4 growth_requests = Some 43
  /\ segments_after highest_index (ip_ways 17) 17 small_requests = Some 35
  /\ max_set_segments < 35.
Proof. repeat split; vm_compute; reflexivity. Qed.

(** In the four-way run the victim does not matter: every policy that
    picks among its candidates ends on the same 43 segments. *)
Lemma budget_exceeded_any_policy getVictim bs :
  picks_candidate getVictim ->
  installs getVictim ip4 0 (replicate 4 CacheBlk_new) growth_requests = Some bs ->
  set_segments bs = 43.
Proof.
  intros Hpick.
  change (installs getVictim ip4 0 (replicate 4 CacheBlk_new) growth_requests)
    with (blocks' ← install getVictim ip4 3 three_lines (rq 4 1472); Some blocks').
  unfold install, findCompressedDataReplacement.
  set (st := scan_blocks _ _ _ _ _ _).
  assert (valid_blocks st = [1; 2; 3]%nat) as -> by reflexivity.
  assert (evicts st = [0%nat]) as -> by reflexivity.
  assert (segments st = 30) as -> by reflexivity.
  assert (replacement st = Some 0%nat) as -> by reflexivity.
  assert (update_blk st = None) as -> by reflexivity.
  change (extra_segments0 (r_size (rq 4 1472)) 30) with 21.
  change ((0 <? 21) || negb (bool_decide (is_Some (Some 0%nat)))) with true.
  cbv iota.
  destruct (getVictim [1; 2; 3]%nat) as [v|] eqn:Hv; [|discriminate].
  apply Hpick in Hv.
  repeat (apply elem_of_cons in Hv as [-> | Hv]); [ | | | inversion Hv];
    intros H; vm_compute in H; injection H as <-; reflexivity.
Qed.

(** ** The indexing policy *)

(** *** Powers of two *)

Lemma land_pred_pow2 k : 0 <= k -> Z.land (2 ^ k) (2 ^ k - 1) = 0.
Proof.
  intros Hk. rewrite Z.sub_1_r, <- Z.ones_equiv, Z.land_ones by assumption.
  apply Z.mod_same. apply Z.pow_nonzero; lia.
Qed.

Lemma land_pred_zero x : 0 < x -> Z.land x (x - 1) = 0 -> x = 2 ^ Z.log2 x.
Proof.
  intros Hx Hland.
  destruct (Z.log2_spec x Hx) as [Hlo Hhi].
  destruct (Z.eq_dec x (2 ^ Z.log2 x)) as [|Hne]; [assumption|exfalso].
  assert (0 < 2 ^ Z.log2 x)
    by (apply Z.pow_pos_nonneg; [lia | apply Z.log2_nonneg]).
  assert (Z.log2 (x - 1) = Z.log2 x) as Hlog
    by (apply Z.log2_unique; [apply Z.log2_nonneg | lia]).
  assert (Z.testbit (Z.land x (x - 1)) (Z.log2 x) = true) as Hbit.
  { rewrite Z.land_spec, Z.bit_log2 by assumption.
    rewrite <- Hlog. rewrite Z.bit_log2 by lia. reflexivity. }
  rewrite Hland, Z.bits_0 in Hbit. discriminate.
Qed.

(** X12: [isPowerOf2] of the indexing policy, on a [uint32_t], holds
    exactly of the powers of two: the values [2 ^ k]. *)
Lemma Indexing_isPowerOf2_spec x :
  0 <= x < 2 ^ 32 ->
  Indexing.isPowerOf2 x = true <-> exists k, 0 <= k /\ x = 2 ^ k.
Proof.
  intros Hx. unfold Indexing.isPowerOf2. split.
  - intros [Hnz Hland]%andb_true_iff.
    apply negb_true_iff, Z.eqb_neq in Hnz. apply Z.eqb_eq in Hland.
    unfold Int.to_uint32 in Hland. rewrite wrap_small in Hland by lia.
    exists (Z.log2 x). split; [apply Z.log2_nonneg|].
    apply land_pred_zero; [lia | assumption].
  - intros (k & Hk & ->).
    assert (0 < 2 ^ k) by (apply Z.pow_pos_nonneg; lia).
    unfold Int.to_uint32. rewrite wrap_small by lia.
    rewrite land_pred_pow2 by assumption.
    apply andb_true_iff. split; [|reflexivity].
    apply negb_true_iff, Z.eqb_neq. lia.
Qed.

(** [isPowerOf2] of the tag store, on the block size. *)
Lemma Tags_isPowerOf2_spec n :
  0 <= n ->
  Tags.isPowerOf2 n = true <-> exists k, 0 <= k /\ n = 2 ^ k.
Proof.
  intros Hn. unfold Tags.isPowerOf2. split.
  - intros [Hnz Hland]%andb_true_iff.
    apply negb_true_iff, Z.eqb_neq in Hnz. apply Z.eqb_eq in Hland.
    exists (Z.log2 n). split; [apply Z.log2_nonneg|].
    apply land_pred_zero; [lia | assumption].
  - intros (k & Hk & ->).
    assert (0 < 2 ^ k) by (apply Z.pow_pos_nonneg; lia).
    rewrite land_pred_pow2 by assumption.
    apply andb_true_iff. split; [|reflexivity].
    apply negb_true_iff, Z.eqb_neq. lia.
Qed.

(** *** setEntry *)


(** C6 does not hold of the code: base.cc holds a second definition of
    [setEntry], by bit masks, that disagrees with the one by division. In
    a policy of two sets of two ways, index 1 is recorded at [0][1] by the
    first and at [1][0] by the second, which does not tell the entry its
    position; over a whole [tagsInit] the first gives every entry its own
    place, the second writes entries 2 and 3 over entries 0 and 1. *)
Theorem setEntry_definitions_disagree :
  linked Indexing.setEntry ip22 4 1
  = Ret ([[None; Some 1%nat]; [None; None]], Some (0, 1))
  /\ linked Indexing.setEntry_mask ip22 4 1
     = Ret ([[None; None]; [Some 1%nat; None]], Some (0, 0))
  /\ initialised Indexing.setEntry ip22 4
     = Ret ([[Some 0; Some 1]; [Some 2; Some 3]]%nat,
            [Some (0, 0); Some (0, 1); Some (1, 0); Some (1, 1)])
  /\ initialised Indexing.setEntry_mask ip22 4
     = Ret ([[Some 2%nat; None]; [Some 3%nat; None]],
            [Some (0, 0); Some (0, 0); Some (0, 0); Some (0, 0)]).
Proof. repeat split; vm_compute; reflexivity. Qed.

(** ** Construction *)

(** Where the quotient of the initialiser is defined, the indexing policy
    is constructed exactly when the number of sets is a power of two and
    the associativity positive, and the constructor is fatal otherwise. *)
Lemma indexing_ctor_checked numSegments p :
  Indexing.p_entry_size p * Indexing.p_assoc p <> 0 ->
  let numSets :=
    Int.to_uint32
      (Indexing.p_size p ÷ (Indexing.p_entry_size p * Indexing.p_assoc p)) in
  match Indexing.BaseIndexingPolicy_new numSegments p with
  | Ret ip =>
      Indexing.isPowerOf2 numSets = true /\ 0 < Indexing.p_assoc p
      /\ Indexing.numSets ip = numSets
      /\ Indexing.assoc ip = Indexing.p_assoc p
  | Fail (Fatal _) =>
      Indexing.isPowerOf2 numSets = false \/ Indexing.p_assoc p <= 0
  | Fail _ => False
  end.
Proof.
  intros Hnz numSets. unfold Indexing.BaseIndexingPolicy_new. fold numSets.
  replace (negb (Indexing.p_entry_size p * Indexing.p_assoc p =? 0)) with true
    by (symmetry; apply negb_true_iff, Z.eqb_neq; exact Hnz).
  cbn [guard bind].
  destruct (Indexing.isPowerOf2 numSets); cbn [guard bind]; [|now left].
  destruct (Z.leb_spec (Indexing.p_assoc p) 0); cbn [negb guard bind].
  - now right.
  - repeat split. lia.
Qed.

(** Where the quotient of the initialiser is defined, the tag store is
    constructed exactly when an indexing policy is supplied and the block
    size is a power of two of at least 4, and the constructor is fatal
    otherwise. *)
Lemma tags_ctor_checked p :
  p_block_size p <> 0 ->
  match BaseSetAssoc_new p with
  | Ret ts =>
      p_indexing_policy p = Some (indexingPolicy ts)
      /\ 4 <= p_block_size p /\ Tags.isPowerOf2 (p_block_size p) = true
  | Fail (Fatal _) =>
      p_indexing_policy p = None \/ p_block_size p < 4
      \/ Tags.isPowerOf2 (p_block_size p) = false
  | Fail _ => False
  end.
Proof.
  intros Hnz. unfold BaseSetAssoc_new.
  replace (negb (p_block_size p =? 0)) with true
    by (symmetry; apply negb_true_iff, Z.eqb_neq; exact Hnz).
  cbn [guard bind].
  destruct (p_indexing_policy p) as [ip|]; [|now left].
  destruct (Z.ltb_spec (p_block_size p) 4); cbn [orb negb guard bind].
  - right. now left.
  - destruct (Tags.isPowerOf2 (p_block_size p)); cbn [negb guard bind].
    + repeat split. lia.
    + right. now right.
Qed.

(** C7 does not hold of the code for an associativity or a block size of
    zero: the member initialisers divide by them before the body of the
    constructor reaches its check, so the call has no defined behaviour
    where the claim has a fatal error. For other bad configurations the
    constructors are fatal, and a valid one constructs. *)
Theorem construction_divides_before_checking :
  Indexing.BaseIndexingPolicy_new 4
    {| Indexing.p_size := 1024; Indexing.p_entry_size := 64;
       Indexing.p_assoc := 0 |}
  = Fail (Undefined "division by zero")
  /\ BaseSetAssoc_new
       {| p_size := 1024; p_block_size := 0; p_assoc := 4;
          p_indexing_policy := Some ip4 |}
     = Fail (Undefined "division by zero")
  /\ Indexing.BaseIndexingPolicy_new 4
       {| Indexing.p_size := 768; Indexing.p_entry_size := 64;
          Indexing.p_assoc := 4 |}
     = Fail (Fatal "# of sets must be non-zero and a power of 2")
  /\ BaseSetAssoc_new
       {| p_size := 1024; p_block_size := 2; p_assoc := 4;
          p_indexing_policy := Some ip4 |}
     = Fail (Fatal "Block size must be at least 4 and a power of 2")
  /\ Indexing.BaseIndexingPolicy_new 2
       {| Indexing.p_size := 256; Indexing.p_entry_size := 64;
          Indexing.p_assoc := 2 |}
     = Ret ip22.
Proof. repeat split. Qed.

(** ** getEntryData *)

(** X13: [getEntryData] throws its out-of-range error exactly on a
    position outside the table, and its null-entry error exactly on a
    position of the table that holds no entry. *)
Lemma getEntryData_throws ip set segmentOffset cStatus cSize :
  0 <= set -> 0 <= segmentOffset ->
  let in_range :=
    exists row, Indexing.sets ip !! Z.to_nat set = Some row
                /\ segmentOffset < Z.of_nat (length row) in
  (Indexing.getEntryData ip set segmentOffset cStatus cSize
   = Fail (OutOfRange "Index out of bounds") <-> ~ in_range)
  /\ (Indexing.getEntryData ip set segmentOffset cStatus cSize
      = Fail (RuntimeError "Entry is null")
      <-> in_range /\ Indexing.entry_at ip set segmentOffset = None).
Proof.
  intros Hset Hoff in_range. unfold Indexing.getEntryData, Indexing.entry_at.
  destruct (Z.ltb_spec set (Z.of_nat (length (Indexing.sets ip)))) as [Hlt|Hge];
    cbn [guard bind].
  2:{ assert (~ in_range) as Hout.
      { intros (row & Hrow & _). apply lookup_lt_Some in Hrow. lia. }
      split; split; try easy; try (intros [Hin _]; contradiction). }
  destruct (Indexing.sets ip !! Z.to_nat set) as [row|] eqn:Hrow.
  2:{ apply lookup_ge_None in Hrow. lia. }
  change (default [] (Some row)) with row.
  destruct (Z.ltb_spec segmentOffset (Z.of_nat (length row))) as [Hlt2|Hge2];
    cbn [guard bind].
  2:{ assert (~ in_range) as Hout.
      { intros (row' & [= <-] & Hlt'). lia. }
      split; split; try easy; try (intros [Hin _]; contradiction). }
  assert in_range as Hin by (exists row; auto).
  destruct (mjoin (row !! Z.to_nat segmentOffset)) as [e|] eqn:He.
  - split; split.
    + destruct (guard _ _) as [[]|f] eqn:Hg; cbn [bind]; [discriminate|].
      unfold guard in Hg. destruct (_ <? _); [discriminate|].
      injection Hg as <-. discriminate.
    + intros Hout. contradiction.
    + destruct (guard _ _) as [[]|f] eqn:Hg; cbn [bind]; [discriminate|].
      unfold guard in Hg. destruct (_ <? _); [discriminate|].
      injection Hg as <-. discriminate.
    + intros [_ Hnone]. cbn [mbind option_bind] in Hnone.
      rewrite He in Hnone. discriminate.
  - split; split; try easy; try (intros Hout; contradiction).
Qed.

(** C8 does not hold of the code on a valid position with an entry: the
    value returned is the element of the set at position [dataEnd], read
    without a check. In a set of four ways the read is past the end of the
    vector, with no error raised; in a set of sixteen ways, the call for
    way 0 with one compressed segment returns the pointer held at way 8,
    not bytes of the entry of way 0. *)
Theorem getEntryData_reads_dataEnd :
  Indexing.getEntryData ip4 0 0 false 0
  = Fail (Undefined "sets[set][dataEnd] out of bounds")
  /\ Indexing.getEntryData (ip_ways 16) 0 0 true 1 = Ret (Some 8%nat)
  /\ Indexing.entry_at (ip_ways 16) 0 0 = Some 0%nat.
Proof. repeat split. Qed.

(** * Further properties *)

(** ** findCompressedDataReplacement: when the call has no result *)

Lemma positions_lookup keep bs p :
  p ∈ positions keep 0 bs ->
  exists b, bs !! p = Some b /\ keep b = true.
Proof.
  intros (_ & b & Hb & Hk)%elem_of_positions.
  rewrite Nat.sub_0_r in Hb. now exists b.
Qed.

Lemma scanned_replacement_lookup ip blocks addr is_secure update_expansion
    evicts0 r :
  replacement (scanned ip blocks addr is_secure update_expansion evicts0)
  = Some r ->
  is_Some (blocks !! r).
Proof.
  unfold scanned. rewrite scan_replacement. simpl.
  destruct (last _) as [r'|] eqn:Hlast; [|discriminate].
  intros [= ->]. apply last_Some_elem_of, positions_lookup in Hlast.
  destruct Hlast as (b & Hb & _). eauto.
Qed.

Lemma scanned_valid_lookup ip blocks addr is_secure update_expansion evicts0 v :
  v ∈ valid_blocks (scanned ip blocks addr is_secure update_expansion evicts0) ->
  is_Some (blocks !! v).
Proof.
  rewrite scanned_valid_blocks. intros (b & Hb & _)%positions_lookup. eauto.
Qed.

Section Outcome.

Variable getVictim : list ptr -> option ptr.
Variables (ip : Indexing.BaseIndexingPolicy) (blocks : list CacheBlk).
Variables (addr : Z) (is_secure : bool) (req_size : Z).
Variables (evicts0 : list ptr) (update_expansion : bool).

Hypothesis Hpick : picks_candidate getVictim.
Hypothesis Hempty : rejects_only_empty getVictim.

Local Abbreviation st := (scanned ip blocks addr is_secure update_expansion evicts0).
Local Abbreviation extra := (extra_segments0 req_size (segments st)).

(** Once the first decision has a block of the set, the rest of the call
    has a result. *)
Lemma second_decision_returns repl1 evicts1 calls1 b1 :
  blocks !! repl1 = Some b1 ->
  is_Some
    ('(repl2, evicts2, calls2) ←
       (if 0 <? extra_less extra b1 then
          let large :=
            large_blocks blocks (valid_blocks st) (extra_less extra b1) repl1 in
          match large with
          | [] => Some (repl1, evicts1, calls1)
          | _ :: _ =>
              v ← getVictim large;
              Some (v, evicts1 ++ [v], calls1 ++ [(LargeVictim, large)])
          end
        else Some (repl1, evicts1, calls1));
     b2 ← blocks !! repl2;
     Some {| target := default repl2 (update_blk st);
             evicted := evicts2;
             victim_calls := calls2 |}).
Proof.
  intros Hb1.
  destruct (0 <? extra_less extra b1); cbn zeta.
  - destruct (large_blocks blocks (valid_blocks st) (extra_less extra b1) repl1)
      as [|q qs] eqn:Hlarge.
    + cbn [mbind option_bind]. rewrite Hb1. cbn [mbind option_bind]. eauto.
    + destruct (getVictim (q :: qs)) as [v|] eqn:Hv.
      2:{ apply Hempty in Hv. discriminate. }
      cbn [mbind option_bind].
      apply Hpick in Hv. rewrite <- Hlarge in Hv.
      apply large_blocks_subseteq, scanned_valid_lookup in Hv as [b2 Hb2].
      rewrite Hb2. cbn [mbind option_bind]. eauto.
  - cbn [mbind option_bind]. rewrite Hb1. cbn [mbind option_bind]. eauto.
Qed.

(** X1: with a policy that picks among its candidates and rejects only
    an empty candidate list, the call has no result (a null victim is
    dereferenced) exactly when no block is resident and either the
    shortfall is positive or the loop found no free block and no block to
    update. *)
Theorem no_result_iff_no_resident :
  findCompressedDataReplacement getVictim ip blocks addr is_secure req_size
    evicts0 update_expansion = None
  <-> valid_blocks st = []
      /\ (0 < extra \/ replacement st = None).
Proof.
  unfold findCompressedDataReplacement.
  change (scan_blocks (Indexing.extractTag ip addr) is_secure update_expansion
            (scan_init evicts0) 0%nat blocks) with st.
  destruct ((0 <? extra) || negb (bool_decide (is_Some (replacement st))))
    eqn:Hcond.
  - assert (0 < extra \/ replacement st = None) as Hor.
    { apply orb_true_iff in Hcond as [Hpos | Hnone].
      - left. now apply Z.ltb_lt.
      - right. apply negb_true_iff, bool_decide_eq_false in Hnone.
        destruct (replacement st); [|reflexivity].
        exfalso. apply Hnone. eauto. }
    destruct (getVictim (valid_blocks st)) as [v|] eqn:Hv.
    + cbn [mbind option_bind].
      assert (valid_blocks st <> []) as Hne
        by (intros Hnil; apply Hempty in Hnil; congruence).
      apply Hpick in Hv. apply scanned_valid_lookup in Hv as [b1 Hb1].
      rewrite Hb1. cbn [mbind option_bind].
      destruct (second_decision_returns v (evicts st ++ [v])
                  [(FirstVictim, valid_blocks st)] b1 Hb1) as [d Hd].
      cbv zeta in Hd |- *. rewrite Hd. split; [discriminate | intros [Hnil _]; contradiction].
    + cbn [mbind option_bind]. apply Hempty in Hv.
      split; [intros _; split; assumption | reflexivity].
  - apply orb_false_iff in Hcond as [Hle Hsome].
    apply Z.ltb_ge in Hle. apply negb_false_iff, bool_decide_eq_true in Hsome.
    destruct Hsome as [r Hr]. rewrite Hr. cbn [mbind option_bind].
    destruct (scanned_replacement_lookup _ _ _ _ _ _ _ Hr) as [b1 Hb1].
    rewrite Hb1. cbn [mbind option_bind].
    destruct (second_decision_returns r (evicts st) [] b1 Hb1) as [d Hd].
    cbv zeta in Hd |- *. rewrite Hd. split; [discriminate|].
    intros [_ [Hpos | Hnone]]; [lia | congruence].
Qed.

End Outcome.

Lemma highest_index_rejects_only_empty : rejects_only_empty highest_index.
Proof.
  intros c. destruct c as [|p ps]; simpl; split; try reflexivity; discriminate.
Qed.

Lemma no_result_iff_no_resident_witness :
  findCompressedDataReplacement highest_index ip4 (replicate 4 CacheBlk_new)
    0 false 4096 [] false = None.
Proof.
  apply (no_result_iff_no_resident highest_index ip4 (replicate 4 CacheBlk_new)
           0 false 4096 [] false
           highest_index_picks highest_index_rejects_only_empty).
  split; [reflexivity | left; reflexivity].
Defined.

(** ** findCompressedDataReplacement: what is evicted *)

Lemma positions_ge keep bs : forall p0 p,
  p ∈ positions keep p0 bs -> (p0 <= p)%nat.
Proof. intros p0 p Hp. now apply elem_of_positions in Hp as [Hle _]. Qed.

Lemma NoDup_positions keep bs : forall p0, NoDup (positions keep p0 bs).
Proof.
  induction bs as [|b bs IH]; intros p0; simpl; [constructor|].
  destruct (keep b); simpl; [|apply IH].
  constructor; [|apply IH].
  intros Hin. apply positions_ge in Hin. lia.
Qed.

Lemma free_not_resident t is_secure update_expansion blocks p :
  p ∈ positions is_free 0 blocks ->
  p ∈ positions (is_resident t is_secure update_expansion) 0 blocks ->
  False.
Proof.
  intros (b & Hb & Hf)%positions_lookup (b' & Hb' & Hr)%positions_lookup.
  rewrite Hb in Hb'. injection Hb' as <-.
  unfold is_free in Hf. unfold is_resident in Hr.
  destruct (isValid b); simpl in *; discriminate.
Qed.

Lemma large_blocks_other blocks vb extra1 repl1 v :
  v ∈ large_blocks blocks vb extra1 repl1 ->
  v <> repl1
  /\ exists b, blocks !! v = Some b /\ extra1 <= segs (cSize b).
Proof.
  unfold large_blocks. intros Hv.
  apply list_elem_of_In, filter_In in Hv as [_ Hv].
  destruct (blocks !! v) as [b|]; [|discriminate].
  apply andb_true_iff in Hv as [Hle Hne].
  apply Z.leb_le in Hle. apply negb_true_iff, Nat.eqb_neq in Hne.
  split; [exact Hne|]. now exists b.
Qed.

(** X2: for a policy that picks among its candidates, and an empty vector
    on entry, the evicted blocks are the free blocks of the set, in way
    order, followed by one victim per query to the policy: at most two,
    each a resident block, and no block is listed twice. *)
Theorem evicted_once getVictim ip blocks addr is_secure req_size
    update_expansion d :
  picks_candidate getVictim ->
  findCompressedDataReplacement getVictim ip blocks addr is_secure req_size
    [] update_expansion = Some d ->
  NoDup (evicted d)
  /\ exists victims,
       evicted d = positions is_free 0 blocks ++ victims
       /\ length victims = length (victim_calls d)
       /\ (length victims <= 2)%nat
       /\ forall v, v ∈ victims ->
            exists b, blocks !! v = Some b
                      /\ is_resident (Indexing.extractTag ip addr) is_secure
                           update_expansion b = true.
Proof.
  intros Hpick Hd.
  destruct (find_inv _ _ _ _ _ _ _ _ _ Hd)
    as (repl1 & evicts1 & calls1 & b1 & repl2 & Hfs & Hb1 & Hss & _).
  unfold first_stage in Hfs. unfold second_stage in Hss.
  rewrite scanned_evicts, scanned_valid_blocks in Hfs.
  rewrite scanned_valid_blocks in Hss. simpl app in Hfs.
  set (t := Indexing.extractTag ip addr) in *.
  set (free := positions is_free 0 blocks) in *.
  set (resident := positions (is_resident t is_secure update_expansion) 0 blocks)
    in *.
  assert (exists victims,
            evicted d = free ++ victims
            /\ length victims = length (victim_calls d)
            /\ (length victims <= 2)%nat
            /\ NoDup victims
            /\ forall v, v ∈ victims -> v ∈ resident)
    as (victims & Hev & Hlen & Hle & Hnd & Hres).
  { destruct Hfs as [(_ & Hv1 & -> & ->) | (_ & _ & -> & ->)];
      destruct Hss as [(_ & _ & Hv2 & -> & ->) | (_ & _ & -> & ->)].
    - apply Hpick in Hv1, Hv2.
      apply large_blocks_other in Hv2 as Hne. destruct Hne as [Hne _].
      apply large_blocks_subseteq in Hv2.
      exists [repl1; repl2]. rewrite <- app_assoc. repeat split; simpl; try lia.
      + repeat constructor; [|inversion 1].
        intros ->%list_elem_of_singleton. contradiction.
      + intros v [-> | ->%list_elem_of_singleton]%elem_of_cons; assumption.
    - apply Hpick in Hv1.
      exists [repl1]. repeat split; simpl; try lia.
      + repeat constructor. inversion 1.
      + intros v ->%list_elem_of_singleton. assumption.
    - apply Hpick in Hv2. apply large_blocks_subseteq in Hv2.
      exists [repl2]. repeat split; simpl; try lia.
      + repeat constructor. inversion 1.
      + intros v ->%list_elem_of_singleton. assumption.
    - exists []. rewrite app_nil_r. repeat split; simpl; try lia.
      + constructor.
      + intros v Hv. inversion Hv. }
  split.
  - rewrite Hev. apply NoDup_app. split; [apply NoDup_positions|].
    split; [|exact Hnd].
    intros p Hfree Hvic. apply Hres in Hvic.
    eapply free_not_resident; eassumption.
  - exists victims. repeat split; try assumption.
    intros v Hv. apply Hres, positions_lookup in Hv. exact Hv.
Qed.

Lemma evicted_once_witness :
  NoDup [0; 2; 1]%nat.
Proof.
  exact (proj1
    (evicted_once highest_index ip4
       [blk false 0 0; blk true 1 1280; blk true 2 640]
       (64 * 9) false 1472 false
       {| target := 1%nat; evicted := [0; 2; 1]%nat;
          victim_calls := [(FirstVictim, [1; 2]%nat);
                           (LargeVictim, [1%nat])] |}
       highest_index_picks eq_refl)).
Defined.

Lemma segs_nonneg c : 0 <= c -> 0 <= segs c.
Proof. intros Hc. unfold segs. apply Z.div_pos; lia. Qed.

Lemma segs_bound c : 0 <= c < 2 ^ 32 -> 0 <= segs c < 2 ^ 27.
Proof.
  intros Hc. unfold segs. split; [apply Z.div_pos; lia|].
  apply Z.div_lt_upper_bound; lia.
Qed.

Lemma segments_of_nonneg keep bs :
  Forall (fun b => 0 <= cSize b < 2 ^ 32) bs -> 0 <= segments_of keep bs.
Proof.
  induction 1 as [|b bs Hb _ IH]; simpl; [lia|].
  pose proof (segs_bound _ Hb). destruct (keep b); lia.
Qed.

Lemma extra_less_small extra b :
  - 2 ^ 30 <= extra < 2 ^ 31 -> 0 <= cSize b -> segs (cSize b) < 2 ^ 30 ->
  extra_less extra b = extra - segs (cSize b).
Proof.
  intros He Hc Hs. unfold extra_less.
  pose proof (segs_nonneg _ Hc). apply to_int_small. lia.
Qed.

(** X3: when the request fits beside the resident blocks and the set has
    a free block or the matching block of an update, the policy is not
    asked and no valid block is evicted: only the free blocks are appended
    to the caller's vector, and the target is the block to update if there
    is one, the last free block otherwise. *)
Theorem fits_without_eviction getVictim ip blocks addr is_secure req_size
    evicts0 update_expansion r :
  let t := Indexing.extractTag ip addr in
  0 <= req_size < 2 ^ 32 ->
  Forall (fun b => 0 <= cSize b < 2 ^ 32) blocks ->
  last (positions (fun b => negb (is_resident t is_secure update_expansion b))
          0 blocks) = Some r ->
  (req_size + 63) / 64
  + segments_of (is_resident t is_secure update_expansion) blocks <= 32 ->
  findCompressedDataReplacement getVictim ip blocks addr is_secure req_size
    evicts0 update_expansion
  = Some {| target :=
              default r
                (last (positions (is_updating t is_secure update_expansion)
                         0 blocks));
            evicted := evicts0 ++ positions is_free 0 blocks;
            victim_calls := [] |}.
Proof.
  intros t Hreq Hsizes Hlast Hfit.
  set (occ := segments_of (is_resident t is_secure update_expansion) blocks) in *.
  assert (0 <= occ) as Hocc0 by (apply segments_of_nonneg; exact Hsizes).
  assert (0 <= (req_size + 63) / 64) as Hneed0 by (apply Z.div_pos; lia).
  unfold findCompressedDataReplacement. fold t.
  change (scan_blocks t is_secure update_expansion (scan_init evicts0) 0%nat blocks)
    with (scanned ip blocks addr is_secure update_expansion evicts0).
  set (st := scanned ip blocks addr is_secure update_expansion evicts0).
  assert (segments st = occ) as Hseg.
  { unfold st. rewrite scanned_segments. fold t. fold occ.
    apply wrap_small. lia. }
  assert (replacement st = Some r) as Hrep.
  { unfold st, scanned. rewrite scan_replacement. fold t.
    rewrite Hlast. reflexivity. }
  assert (update_blk st
          = last (positions (is_updating t is_secure update_expansion) 0 blocks))
    as Hupd.
  { unfold st, scanned. rewrite scan_update_blk. fold t. simpl.
    change (is_updating t is_secure update_expansion)
      with (fun b => isValid b && (matchTag b t is_secure && update_expansion)).
    match goal with |- _ = ?x => destruct x end; reflexivity. }
  assert (evicts st = evicts0 ++ positions is_free 0 blocks) as Hev
    by (unfold st; apply scanned_evicts).
  assert (extra_segments0 req_size (segments st)
          = (req_size + 63) / 64 - (32 - occ)) as Hextra.
  { rewrite Hseg. rewrite extra_segments0_small by lia. reflexivity. }
  rewrite Hextra, Hrep, Hupd, Hev.
  replace (0 <? (req_size + 63) / 64 - (32 - occ)) with false
    by (symmetry; apply Z.ltb_ge; lia).
  cbn [orb negb mbind option_bind].
  rewrite bool_decide_eq_true_2 by eauto. cbn [orb negb mbind option_bind].
  apply last_Some_elem_of, positions_lookup in Hlast as (b1 & Hb1 & _).
  rewrite Hb1. cbn [mbind option_bind].
  assert (0 <= cSize b1 < 2 ^ 32) as Hc1.
  { rewrite Forall_forall in Hsizes. apply Hsizes.
    eapply list_elem_of_lookup_2. exact Hb1. }
  pose proof (segs_bound _ Hc1) as Hs1.
  rewrite extra_less_small by lia.
  replace (0 <? (req_size + 63) / 64 - (32 - occ) - segs (cSize b1)) with false
    by (symmetry; apply Z.ltb_ge; lia).
  cbn [mbind option_bind]. rewrite Hb1. reflexivity.
Qed.

Lemma fits_without_eviction_witness :
  findCompressedDataReplacement highest_index ip4
    [blk false 0 0; blk true 1 128; blk true 2 128; blk true 9 64]
    (64 * 9) false 192 [] false
  = Some {| target := 0%nat; evicted := [0%nat]; victim_calls := [] |}.
Proof.
  apply (fits_without_eviction highest_index ip4
           [blk false 0 0; blk true 1 128; blk true 2 128; blk true 9 64]
           (64 * 9) false 192 [] false 0%nat).
  - lia.
  - repeat constructor; simpl; lia.
  - reflexivity.
  - vm_compute. discriminate.
Defined.

(** ** findCompressedDataReplacement: the room the evictions make *)

Lemma freed_app blocks ps qs :
  freed blocks (ps ++ qs) = freed blocks ps + freed blocks qs.
Proof.
  induction ps as [|p ps IH]; simpl; [reflexivity|]. rewrite IH. lia.
Qed.

Lemma freed_free blocks : forall ps,
  (forall p, p ∈ ps -> p ∈ positions is_free 0 blocks) ->
  freed blocks ps = 0.
Proof.
  induction ps as [|p ps IH]; intros Hall; simpl; [reflexivity|].
  rewrite IH by (intros q Hq; apply Hall; now apply list_elem_of_further).
  destruct (positions_lookup _ _ _ (Hall p (list_elem_of_here _ _)))
    as (b & -> & Hf).
  unfold is_free in Hf. apply negb_true_iff in Hf. now rewrite Hf.
Qed.

Lemma freed_resident t is_secure update_expansion blocks v b :
  v ∈ positions (is_resident t is_secure update_expansion) 0 blocks ->
  blocks !! v = Some b ->
  freed blocks [v] = segs (cSize b).
Proof.
  intros (b' & Hb' & Hr)%positions_lookup Hb.
  rewrite Hb in Hb'. injection Hb' as <-.
  unfold freed. simpl. rewrite Hb.
  unfold is_resident in Hr. apply andb_true_iff in Hr as [-> _]. lia.
Qed.

Lemma large_blocks_nil blocks vb extra1 repl1 p b :
  large_blocks blocks vb extra1 repl1 = [] ->
  p ∈ vb -> p <> repl1 -> blocks !! p = Some b ->
  segs (cSize b) < extra1.
Proof.
  unfold large_blocks. intros Hnil Hp Hne Hb.
  destruct (Z_lt_le_dec (segs (cSize b)) extra1) as [|Hle]; [assumption|].
  exfalso.
  assert (p ∈ List.filter
            (fun p => match blocks !! p with
                      | Some b => (extra1 <=? segs (cSize b))
                                  && negb (Nat.eqb p repl1)
                      | None => false
                      end) vb) as Hin.
  { apply list_elem_of_In, filter_In. split; [now apply list_elem_of_In|].
    rewrite Hb. apply andb_true_iff. split; [now apply Z.leb_le|].
    now apply negb_true_iff, Nat.eqb_neq. }
  rewrite Hnil in Hin. inversion Hin.
Qed.

(** X4: the evictions make room for the request, with one exception. For
    a policy that picks among its candidates and sizes that do not wrap,
    either the requested segments fit in the budget of 32 beside the
    resident blocks that are not evicted, or the policy was asked once,
    its victim holds fewer segments than are missing, and no other
    resident block holds the segments still missing after it. *)
Theorem evictions_make_room getVictim ip blocks addr is_secure req_size
    update_expansion d :
  let t := Indexing.extractTag ip addr in
  let occupied := segments_of (is_resident t is_secure update_expansion) blocks in
  let needed := (req_size + 63) / 64 in
  let resident := positions (is_resident t is_secure update_expansion) 0 blocks in
  picks_candidate getVictim ->
  0 <= req_size < 2 ^ 32 ->
  Forall (fun b => 0 <= cSize b < 2 ^ 32) blocks ->
  occupied < 2 ^ 30 ->
  findCompressedDataReplacement getVictim ip blocks addr is_secure req_size
    [] update_expansion = Some d ->
  needed + occupied - freed blocks (evicted d) <= max_set_segments
  \/ exists v b,
       victim_calls d = [(FirstVictim, resident)]
       /\ getVictim resident = Some v
       /\ blocks !! v = Some b
       /\ 0 < needed + occupied - max_set_segments - segs (cSize b)
       /\ forall p b',
            p ∈ resident -> p <> v -> blocks !! p = Some b' ->
            segs (cSize b')
            < needed + occupied - max_set_segments - segs (cSize b).
Proof.
  intros t occupied needed resident Hpick Hreq Hsizes Hocc Hd.
  unfold max_set_segments.
  assert (0 <= occupied) as Hocc0 by (apply segments_of_nonneg; exact Hsizes).
  assert (0 <= needed < 2 ^ 27) as Hneed.
  { unfold needed. split; [apply Z.div_pos; lia|].
    apply Z.div_lt_upper_bound; lia. }
  destruct (find_inv _ _ _ _ _ _ _ _ _ Hd)
    as (repl1 & evicts1 & calls1 & b1 & repl2 & Hfs & Hb1 & Hss & _).
  unfold first_stage in Hfs. unfold second_stage in Hss.
  rewrite scanned_evicts, scanned_valid_blocks, scanned_segments in Hfs.
  rewrite scanned_valid_blocks, scanned_segments in Hss.
  fold t in Hfs, Hss. fold occupied resident in Hfs, Hss. simpl app in Hfs.
  unfold Int.to_unsigned in Hfs, Hss.
  rewrite wrap_small in Hfs, Hss by lia.
  rewrite extra_segments0_small in Hfs, Hss by lia.
  fold needed in Hfs, Hss. unfold max_set_segments in Hfs, Hss.
  set (free := positions is_free 0 blocks) in *.
  assert (freed blocks free = 0) as Hfree by (apply freed_free; auto).
  assert (0 <= cSize b1 < 2 ^ 32) as Hc1.
  { rewrite Forall_forall in Hsizes. apply Hsizes.
    eapply list_elem_of_lookup_2. exact Hb1. }
  pose proof (segs_bound _ Hc1) as Hs1.
  rewrite extra_less_small in Hss by lia.
  destruct Hfs as [(_ & Hv1 & -> & ->) | (Hnot & _ & -> & ->)].
  - pose proof (Hpick _ _ Hv1) as Hin1.
    pose proof (freed_resident _ _ _ _ _ _ Hin1 Hb1) as Hf1.
    destruct Hss as [(Hpos & _ & Hv2 & -> & _) | (Hnot2 & _ & -> & ->)].
    + left. apply Hpick in Hv2.
      destruct (large_blocks_other _ _ _ _ _ Hv2) as (_ & b2 & Hb2 & Hle).
      apply large_blocks_subseteq in Hv2.
      pose proof (freed_resident _ _ _ _ _ _ Hv2 Hb2) as Hf2.
      rewrite !freed_app, Hfree, Hf1, Hf2. lia.
    + destruct (Z_lt_le_dec 0 (needed - (32 - occupied) - segs (cSize b1)))
        as [Hpos | Hle].
      * right. exists repl1, b1. repeat split; try assumption; [lia|].
        intros p b' Hp Hne Hb'.
        assert (large_blocks blocks resident
                  (needed - (32 - occupied) - segs (cSize b1)) repl1 = [])
          as Hnil.
        { destruct (large_blocks _ _ _ _) eqn:E; [reflexivity|].
          exfalso. apply Hnot2. split; [assumption | discriminate]. }
        pose proof (large_blocks_nil _ _ _ _ _ _ Hnil Hp Hne Hb'). lia.
      * left. rewrite freed_app, Hfree, Hf1. lia.
  - assert (needed - (32 - occupied) <= 0) as Hle by lia.
    destruct Hss as [(Hpos & _) | (_ & _ & -> & _)]; [lia|].
    left. rewrite Hfree. lia.
Qed.

Lemma evictions_make_room_witness :
  (1472 + 63) / 64
  + segments_of (is_resident (Indexing.extractTag ip4 (64 * 9)) false false)
      [blk false 0 0; blk true 1 1280; blk true 2 640]
  - freed [blk false 0 0; blk true 1 1280; blk true 2 640] [0; 2; 1]%nat
  <= max_set_segments
  \/ exists v b,
       [(FirstVictim, [1; 2]%nat); (LargeVictim, [1%nat])]
       = [(FirstVictim,
           positions (is_resident (Indexing.extractTag ip4 (64 * 9)) false false)
             0 [blk false 0 0; blk true 1 1280; blk true 2 640])]
       /\ highest_index
            (positions (is_resident (Indexing.extractTag ip4 (64 * 9)) false false)
               0 [blk false 0 0; blk true 1 1280; blk true 2 640]) = Some v
       /\ [blk false 0 0; blk true 1 1280; blk true 2 640] !! v = Some b
       /\ 0 < (1472 + 63) / 64
              + segments_of
                  (is_resident (Indexing.extractTag ip4 (64 * 9)) false false)
                  [blk false 0 0; blk true 1 1280; blk true 2 640]
              - max_set_segments - segs (cSize b)
       /\ forall p b',
            p ∈ positions
                  (is_resident (Indexing.extractTag ip4 (64 * 9)) false false)
                  0 [blk false 0 0; blk true 1 1280; blk true 2 640] ->
            p <> v ->
            [blk false 0 0; blk true 1 1280; blk true 2 640] !! p = Some b' ->
            segs (cSize b')
            < (1472 + 63) / 64
              + segments_of
                  (is_resident (Indexing.extractTag ip4 (64 * 9)) false false)
                  [blk false 0 0; blk true 1 1280; blk true 2 640]
              - max_set_segments - segs (cSize b).
Proof.
  apply (evictions_make_room highest_index ip4
           [blk false 0 0; blk true 1 1280; blk true 2 640]
           (64 * 9) false 1472 false
           {| target := 1%nat; evicted := [0; 2; 1]%nat;
              victim_calls := [(FirstVictim, [1; 2]%nat);
                               (LargeVictim, [1%nat])] |}
           highest_index_picks).
  - lia.
  - repeat constructor; simpl; lia.
  - vm_compute. reflexivity.
  - reflexivity.
Defined.

(** ** findCompressedDataReplacement: the vector passed by reference *)

(** X5: the call only appends to the vector the caller passes: run with
    a vector holding [evicts0], it makes the same queries and returns the
    same target as with an empty vector, and leaves [evicts0] followed by
    what it would have put in the empty one. *)
Theorem appends_to_evicts getVictim ip blocks addr is_secure req_size
    evicts0 update_expansion :
  findCompressedDataReplacement getVictim ip blocks addr is_secure req_size
    evicts0 update_expansion
  = after_evicts evicts0
      <$> findCompressedDataReplacement getVictim ip blocks addr is_secure
            req_size [] update_expansion.
Proof.
  unfold findCompressedDataReplacement.
  change (scan_blocks (Indexing.extractTag ip addr) is_secure update_expansion
            (scan_init evicts0) 0%nat blocks)
    with (scanned ip blocks addr is_secure update_expansion evicts0).
  change (scan_blocks (Indexing.extractTag ip addr) is_secure update_expansion
            (scan_init []) 0%nat blocks)
    with (scanned ip blocks addr is_secure update_expansion []).
  set (stE := scanned ip blocks addr is_secure update_expansion evicts0).
  set (st0 := scanned ip blocks addr is_secure update_expansion []).
  assert (valid_blocks stE = valid_blocks st0) as ->
    by (unfold stE, st0; now rewrite !scanned_valid_blocks).
  assert (segments stE = segments st0) as ->
    by (unfold stE, st0; now rewrite !scanned_segments).
  assert (replacement stE = replacement st0) as ->
    by (unfold stE, st0, scanned; now rewrite !scan_replacement).
  assert (update_blk stE = update_blk st0) as ->
    by (unfold stE, st0, scanned; now rewrite !scan_update_blk).
  assert (evicts stE = evicts0 ++ evicts st0) as ->
    by (unfold stE, st0; now rewrite !scanned_evicts).
  set (extra := extra_segments0 req_size (segments st0)).
  assert (forall repl1 ev1 calls1,
            ('(repl2, evicts2, calls2) ←
               (b1 ← blocks !! repl1;
                if 0 <? extra_less extra b1 then
                  match large_blocks blocks (valid_blocks st0)
                          (extra_less extra b1) repl1 with
                  | [] => Some (repl1, evicts0 ++ ev1, calls1)
                  | q :: qs =>
                      v ← getVictim (large_blocks blocks (valid_blocks st0)
                                       (extra_less extra b1) repl1);
                      Some (v, (evicts0 ++ ev1) ++ [v],
                            calls1 ++ [(LargeVictim,
                                        large_blocks blocks (valid_blocks st0)
                                          (extra_less extra b1) repl1)])
                  end
                else Some (repl1, evicts0 ++ ev1, calls1));
             b2 ← blocks !! repl2;
             Some {| target := default repl2 (update_blk st0);
                     evicted := evicts2; victim_calls := calls2 |})
            = after_evicts evicts0
                <$> ('(repl2, evicts2, calls2) ←
                       (b1 ← blocks !! repl1;
                        if 0 <? extra_less extra b1 then
                          match large_blocks blocks (valid_blocks st0)
                                  (extra_less extra b1) repl1 with
                          | [] => Some (repl1, ev1, calls1)
                          | q :: qs =>
                              v ← getVictim
                                    (large_blocks blocks (valid_blocks st0)
                                       (extra_less extra b1) repl1);
                              Some (v, ev1 ++ [v],
                                    calls1 ++ [(LargeVictim,
                                                large_blocks blocks
                                                  (valid_blocks st0)
                                                  (extra_less extra b1) repl1)])
                          end
                        else Some (repl1, ev1, calls1));
                     b2 ← blocks !! repl2;
                     Some {| target := default repl2 (update_blk st0);
                             evicted := evicts2; victim_calls := calls2 |}))
    as Htail.
  { intros repl1 ev1 calls1.
    destruct (blocks !! repl1) as [b1|] eqn:Hb1; [|reflexivity].
    cbn [mbind option_bind].
    destruct (0 <? extra_less extra b1).
    - destruct (large_blocks blocks (valid_blocks st0) (extra_less extra b1) repl1)
        as [|q qs].
      + cbn [mbind option_bind]. rewrite Hb1. reflexivity.
      + destruct (getVictim (q :: qs)) as [v|]; [|reflexivity].
        cbn [mbind option_bind].
        destruct (blocks !! v); [|reflexivity].
        cbn [mbind option_bind fmap option_fmap option_map].
        unfold after_evicts. simpl. now rewrite app_assoc.
    - cbn [mbind option_bind]. rewrite Hb1. reflexivity. }
  destruct ((0 <? extra) || negb (bool_decide (is_Some (replacement st0)))).
  - destruct (getVictim (valid_blocks st0)) as [v|]; [|reflexivity].
    cbn [mbind option_bind].
    specialize (Htail v (evicts st0 ++ [v]) [(FirstVictim, valid_blocks st0)]).
    rewrite app_assoc in Htail.
    destruct (blocks !! v) as [b1|]; [|reflexivity].
    cbn [mbind option_bind] in Htail |- *. exact Htail.
  - destruct (replacement st0) as [r|]; [|reflexivity].
    cbn [mbind option_bind].
    specialize (Htail r (evicts st0) []).
    destruct (blocks !! r) as [b1|]; [|reflexivity].
    cbn [mbind option_bind] in Htail |- *. exact Htail.
Qed.

(** ** setEntry and tagsInit *)

Lemma to_long_long_small index :
  0 <= index < 2 ^ 63 -> Int.to_long_long index = index.
Proof.
  intros H. unfold Int.to_long_long, Int.signed, Int.wrap.
  change (2 ^ (64 - 1)) with (2 ^ 63).
  rewrite Z.mod_small by (change (2 ^ 64) with (2 * 2 ^ 63); lia).
  destruct (Z.ltb_spec index (2 ^ 63)); [reflexivity | lia].
Qed.

(** What one call of the first [setEntry] does, on an index of the table. *)
Lemma setEntry_effect ip entries entry index row e :
  0 < Indexing.assoc ip < 2 ^ 32 ->
  Indexing.numSets ip <= 2 ^ 32 ->
  0 <= index < Indexing.assoc ip * Indexing.numSets ip ->
  index < 2 ^ 63 ->
  Indexing.sets ip !! Z.to_nat (index / Indexing.assoc ip) = Some row ->
  index mod Indexing.assoc ip < Z.of_nat (length row) ->
  entries !! entry = Some e ->
  Indexing.setEntry ip entries entry index
  = Ret ({| Indexing.assoc := Indexing.assoc ip;
            Indexing.numSets := Indexing.numSets ip;
            Indexing.setShift := Indexing.setShift ip;
            Indexing.setMask := Indexing.setMask ip;
            Indexing.sets :=
              <[Z.to_nat (index / Indexing.assoc ip) :=
                  <[Z.to_nat (index mod Indexing.assoc ip) := Some entry]> row]>
                (Indexing.sets ip);
            Indexing.tagShift := Indexing.tagShift ip |},
         <[entry := Entry.setPosition e (index / Indexing.assoc ip)
                      (index mod Indexing.assoc ip)]> entries).
Proof.
  intros Hassoc Hsets Hindex H63 Hrow Hway He.
  set (a := Indexing.assoc ip) in *. set (n := Indexing.numSets ip) in *.
  assert (0 <= index / a < n) as Hq.
  { split; [apply Z.div_pos; lia|]. apply Z.div_lt_upper_bound; lia. }
  assert (0 <= index mod a < a) as Hr by (apply Z.mod_pos_bound; lia).
  unfold Indexing.setEntry. fold a n.
  replace (negb (a =? 0)) with true
    by (symmetry; apply negb_true_iff, Z.eqb_neq; lia).
  rewrite to_long_long_small by lia.
  rewrite Z.quot_div_nonneg, Z.rem_mod_nonneg by lia.
  unfold Int.to_uint32. rewrite !wrap_small by lia.
  replace (index / a <? n) with true by (symmetry; apply Z.ltb_lt; lia).
  cbn [guard bind].
  unfold Indexing.store_entry. rewrite Hrow.
  replace (index mod a <? Z.of_nat (length row)) with true
    by (symmetry; apply Z.ltb_lt; lia).
  cbn [guard bind].
  unfold Indexing.inform_position. rewrite He. reflexivity.
Qed.

(** X6: the first [setEntry] stops on its sanity check for an index past
    the last entry of the table (as long as the quotient fits 32 bits). *)
Theorem setEntry_rejects_index ip entries entry index :
  0 < Indexing.assoc ip ->
  0 <= Indexing.numSets ip ->
  Indexing.assoc ip * Indexing.numSets ip <= index < 2 ^ 63 ->
  index / Indexing.assoc ip < 2 ^ 32 ->
  Indexing.setEntry ip entries entry index
  = Fail (AssertFailed "set < numSets").
Proof.
  intros Hassoc Hsets Hindex Hquot.
  set (a := Indexing.assoc ip) in *. set (n := Indexing.numSets ip) in *.
  assert (n <= index / a) as Hq by (apply Z.div_le_lower_bound; lia).
  unfold Indexing.setEntry. fold a n.
  replace (negb (a =? 0)) with true
    by (symmetry; apply negb_true_iff, Z.eqb_neq; lia).
  rewrite to_long_long_small by lia.
  rewrite Z.quot_div_nonneg by lia.
  unfold Int.to_uint32. rewrite (wrap_small 32 (index / a)) by lia.
  replace (index / a <? n) with false by (symmetry; apply Z.ltb_ge; lia).
  reflexivity.
Qed.

Lemma setEntry_rejects_index_witness :
  Indexing.setEntry ip22 (fresh_entries 5) 4 4
  = Fail (AssertFailed "set < numSets").
Proof.
  apply (setEntry_rejects_index ip22 (fresh_entries 5) 4%nat 4);
    simpl; try lia.
  vm_compute. reflexivity.
Defined.

Lemma divmod_inj a i k :
  0 < a -> 0 <= i -> 0 <= k ->
  i / a = k / a -> i mod a = k mod a -> i = k.
Proof.
  intros Ha Hi Hk Hq Hr.
  rewrite (Z.div_mod i a), (Z.div_mod k a) by lia. now rewrite Hq, Hr.
Qed.

Section TagsInit.

Variables (a n : Z).
Hypothesis Ha : 0 < a < 2 ^ 32.
Hypothesis Hn : n <= 2 ^ 32.
Hypothesis Han : a * n < 2 ^ 63.

(** The state of the initialisation once the entries below [k] are linked. *)
Local Abbreviation linked_below k ip entries :=
  (Indexing.assoc ip = a /\ Indexing.numSets ip = n
   /\ table_shaped ip
   /\ Z.of_nat (length entries) = a * n
   /\ forall i, (i < k)%nat ->
        Indexing.entry_at ip (Z.of_nat i / a) (Z.of_nat i mod a) = Some i
        /\ position_of entries i = Some (Z.of_nat i / a, Z.of_nat i mod a)).

Lemma tagsInit_from_links remaining : forall k ip entries,
  Z.of_nat (k + remaining) = a * n ->
  linked_below k ip entries ->
  exists ip' entries',
    tagsInit_from Indexing.setEntry ip entries k remaining = Ret (ip', entries')
    /\ linked_below (k + remaining)%nat ip' entries'.
Proof.
  induction remaining as [|remaining IH]; intros k ip entries Hlen Hinv.
  - exists ip, entries. rewrite Nat.add_0_r. split; [reflexivity | exact Hinv].
  - destruct Hinv as (Hassoc & Hsets & [Hrows Hroom] & Hentries & Hlinked).
    set (index := Z.of_nat k).
    assert (0 <= index < a * n) as Hindex by (unfold index; lia).
    assert (0 <= index / a < n) as Hq.
    { split; [apply Z.div_pos; lia|]. apply Z.div_lt_upper_bound; lia. }
    assert (0 <= index mod a < a) as Hr by (apply Z.mod_pos_bound; lia).
    destruct (Indexing.sets ip !! Z.to_nat (index / a)) as [row|] eqn:Hrow.
    2:{ apply lookup_ge_None in Hrow. rewrite Hrows, Hsets in Hrow. lia. }
    assert (a <= Z.of_nat (length row)) as Hrowlen.
    { rewrite Forall_forall in Hroom. rewrite <- Hassoc. apply Hroom.
      eapply list_elem_of_lookup_2. exact Hrow. }
    destruct (entries !! k) as [e|] eqn:He.
    2:{ apply lookup_ge_None in He. lia. }
    simpl tagsInit_from. fold index.
    rewrite (setEntry_effect ip entries k index row e);
      rewrite ?Hassoc, ?Hsets; try assumption; try lia.
    cbn [bind fst snd].
    replace (k + S remaining)%nat with (S k + remaining)%nat by lia.
    apply IH; [lia|].
    cbn [Indexing.assoc Indexing.numSets].
    split; [reflexivity|]. split; [reflexivity|]. split.
    { unfold table_shaped. cbn [Indexing.sets Indexing.assoc Indexing.numSets].
      rewrite length_insert. rewrite Hsets in Hrows. split; [exact Hrows|].
      rewrite Hassoc in Hroom.
      apply Forall_insert; [exact Hroom|]. rewrite length_insert. lia. }
    split; [rewrite length_insert; exact Hentries|].
    intros i Hi. unfold Indexing.entry_at, position_of.
    cbn [Indexing.sets].
    destruct (decide (i = k)) as [-> | Hne].
    + fold index.
      rewrite list_lookup_insert_eq by (apply lookup_lt_Some in Hrow; lia).
      cbn [mbind option_bind].
      rewrite list_lookup_insert_eq by lia.
      rewrite list_lookup_insert_eq by (apply lookup_lt_Some in He; lia).
      split; reflexivity.
    + destruct (Hlinked i ltac:(lia)) as [Hat Hpos].
      unfold Indexing.entry_at in Hat. unfold position_of in Hpos.
      rewrite (list_lookup_insert_ne entries k i) by lia. split; [|exact Hpos].
      destruct (decide (Z.to_nat (index / a) = Z.to_nat (Z.of_nat i / a)))
        as [Heq | Hneq].
      * rewrite <- Heq.
        rewrite list_lookup_insert_eq by (apply lookup_lt_Some in Hrow; lia).
        cbn [mbind option_bind].
        rewrite <- Heq, Hrow in Hat. cbn [mbind option_bind] in Hat.
        rewrite list_lookup_insert_ne; [exact Hat|].
        intros Hway.
        assert (0 <= Z.of_nat i / a) by (apply Z.div_pos; lia).
        assert (0 <= Z.of_nat i mod a < a) by (apply Z.mod_pos_bound; lia).
        apply Hne. apply Nat2Z.inj. fold index.
        apply (divmod_inj a); lia.
      * rewrite list_lookup_insert_ne by exact Hneq. exact Hat.
Qed.

(** X7: over a table of [numSets] sets with room for [assoc] ways, and as
    many entries as the table has places, [tagsInit] with the first
    [setEntry] succeeds; afterwards entry [i] is found at set [i / assoc],
    way [i % assoc], reports that position, and every place [(set, way)]
    of the table holds the entry [set * assoc + way]. *)
Theorem tagsInit_links_every_entry ip entries :
  Indexing.assoc ip = a -> Indexing.numSets ip = n ->
  table_shaped ip ->
  Z.of_nat (length entries) = a * n ->
  exists ip' entries',
    tagsInit Indexing.setEntry ip entries = Ret (ip', entries')
    /\ (forall i, (i < length entries)%nat ->
          Indexing.entry_at ip' (Z.of_nat i / a) (Z.of_nat i mod a) = Some i
          /\ position_of entries' i
             = Some (Z.of_nat i / a, Z.of_nat i mod a))
    /\ (forall set way, 0 <= set < n -> 0 <= way < a ->
          Indexing.entry_at ip' set way = Some (Z.to_nat (set * a + way))).
Proof.
  intros Hassoc Hsets Hshape Hlen. unfold tagsInit.
  destruct (tagsInit_from_links (length entries) 0%nat ip entries)
    as (ip' & entries' & Hrun & Hinv).
  - simpl. exact Hlen.
  - destruct Hshape. repeat split; try assumption; intros; lia.
  - exists ip', entries'. split; [exact Hrun|].
    destruct Hinv as (_ & _ & _ & _ & Hlinked). simpl in Hlinked.
    split; [exact Hlinked|].
    intros set way Hset Hway.
    assert (0 <= set * a + way < a * n) as Hin by nia.
    destruct (Hlinked (Z.to_nat (set * a + way)) ltac:(lia)) as [Hat _].
    rewrite Z2Nat.id in Hat by lia.
    replace ((set * a + way) / a) with set in Hat
      by (apply Z.div_unique with (r := way); lia).
    replace ((set * a + way) mod a) with way in Hat
      by (apply Z.mod_unique with (q := set); lia).
    exact Hat.
Qed.

End TagsInit.

Lemma tagsInit_links_every_entry_witness :
  exists ip' entries',
    tagsInit Indexing.setEntry ip22 (fresh_entries 4) = Ret (ip', entries')
    /\ (forall i, (i < length (fresh_entries 4))%nat ->
          Indexing.entry_at ip' (Z.of_nat i / 2) (Z.of_nat i mod 2) = Some i
          /\ position_of entries' i
             = Some (Z.of_nat i / 2, Z.of_nat i mod 2))
    /\ (forall set way, 0 <= set < 2 -> 0 <= way < 2 ->
          Indexing.entry_at ip' set way = Some (Z.to_nat (set * 2 + way))).
Proof.
  apply (tagsInit_links_every_entry 2 2).
  - lia.
  - lia.
  - lia.
  - reflexivity.
  - reflexivity.
  - split; [reflexivity|]. repeat constructor; simpl; lia.
  - reflexivity.
Defined.

(** ** A constructed indexing policy *)

(** What construction leaves in the members. *)
Lemma constructed_members numSegments p ip :
  Indexing.BaseIndexingPolicy_new numSegments p = Ret ip ->
  Indexing.sets ip
  = replicate (Z.to_nat (Indexing.numSets ip))
      (replicate (Z.to_nat numSegments) None)
  /\ 0 <= Indexing.numSets ip < 2 ^ 32
  /\ Indexing.isPowerOf2 (Indexing.numSets ip) = true
  /\ Indexing.tagShift ip
     = Indexing.floorLog2 (Indexing.p_entry_size p)
       + Indexing.floorLog2 (Indexing.numSets ip).
Proof.
  unfold Indexing.BaseIndexingPolicy_new.
  destruct (negb (Indexing.p_entry_size p * Indexing.p_assoc p =? 0));
    cbn [guard bind]; [|discriminate].
  set (numSets := Int.to_uint32 _).
  destruct (Indexing.isPowerOf2 numSets) eqn:Hpow; cbn [guard bind];
    [|discriminate].
  destruct (negb (Indexing.p_assoc p <=? 0)); cbn [guard bind]; [|discriminate].
  intros [= <-]. cbn [Indexing.sets Indexing.numSets Indexing.tagShift].
  repeat split; try assumption; try reflexivity;
    unfold numSets, Int.to_uint32, Int.wrap; apply Z.mod_pos_bound; lia.
Qed.

(** X8: on a policy as the constructor leaves it, before any entry is
    linked, [getEntryData] throws on every position: the null-entry error
    inside the table of [numSets] sets of [numSegments] places, the
    out-of-range error outside. *)
Theorem fresh_policy_has_no_entry numSegments p ip set segmentOffset
    cStatus cSize :
  Indexing.BaseIndexingPolicy_new numSegments p = Ret ip ->
  0 <= set -> 0 <= segmentOffset ->
  Indexing.getEntryData ip set segmentOffset cStatus cSize
  = Fail (if (set <? Indexing.numSets ip) && (segmentOffset <? numSegments)
          then RuntimeError "Entry is null"
          else OutOfRange "Index out of bounds").
Proof.
  intros Hnew Hset Hoff.
  destruct (constructed_members _ _ _ Hnew) as (Hsets & Hn & _ & _).
  unfold Indexing.getEntryData. rewrite Hsets, length_replicate.
  rewrite Z2Nat.id by lia.
  destruct (Z.ltb_spec set (Indexing.numSets ip)) as [Hlt | Hge];
    cbn [guard bind andb]; [|reflexivity].
  rewrite lookup_replicate_2 by lia. cbn [default from_option id].
  unfold id. rewrite length_replicate.
  destruct (Z.ltb_spec segmentOffset numSegments) as [Hlt2 | Hge2].
  - rewrite Z2Nat.id by lia.
    replace (segmentOffset <? numSegments) with true
      by (symmetry; apply Z.ltb_lt; lia).
    cbn [guard bind]. rewrite lookup_replicate_2 by lia. reflexivity.
  - replace (segmentOffset <? Z.of_nat (Z.to_nat numSegments)) with false
      by (symmetry; apply Z.ltb_ge; lia).
    reflexivity.
Qed.

Lemma fresh_policy_has_no_entry_witness :
  Indexing.getEntryData ip22 1 1 true 1 = Fail (RuntimeError "Entry is null").
Proof.
  apply (fresh_policy_has_no_entry 2
           {| Indexing.p_size := 256; Indexing.p_entry_size := 64;
              Indexing.p_assoc := 2 |} ip22 1 1 true 1).
  - reflexivity.
  - lia.
  - lia.
Defined.

(** X9: on a policy constructed with an entry size that is a power of
    two (of 32 bits), the tag of an address is the address divided by the bytes the
    sets span together (entry size times number of sets): the address
    [tag * span + rest] with [rest] below the span has tag [tag]. *)
Theorem extractTag_of_constructed numSegments p ip k tag rest :
  Indexing.BaseIndexingPolicy_new numSegments p = Ret ip ->
  0 <= k < 32 -> Indexing.p_entry_size p = 2 ^ k ->
  0 <= rest < Indexing.p_entry_size p * Indexing.numSets ip ->
  Indexing.extractTag ip
    (tag * (Indexing.p_entry_size p * Indexing.numSets ip) + rest)
  = tag.
Proof.
  intros Hnew Hk Hsize Hrest.
  destruct (constructed_members _ _ _ Hnew) as (_ & Hn & Hpow & Hshift).
  unfold Indexing.isPowerOf2 in Hpow.
  apply andb_true_iff in Hpow as [Hnz Hland].
  apply negb_true_iff, Z.eqb_neq in Hnz. apply Z.eqb_eq in Hland.
  unfold Int.to_uint32 in Hland. rewrite wrap_small in Hland by lia.
  apply land_pred_zero in Hland; [|lia].
  set (m := Z.log2 (Indexing.numSets ip)) in *.
  assert (0 <= m) as Hm by apply Z.log2_nonneg.
  unfold Indexing.extractTag. rewrite Hshift. unfold Indexing.floorLog2.
  fold m. rewrite Hsize, Z.log2_pow2 by lia.
  rewrite Z.shiftr_div_pow2 by lia.
  rewrite Z.pow_add_r by lia. rewrite <- Hland.
  rewrite Hsize in Hrest.
  symmetry. apply Z.div_unique with (r := rest); [left; exact Hrest | ring].
Qed.

Lemma extractTag_of_constructed_witness :
  Indexing.extractTag ip22 (9 * (64 * 2) + 100) = 9.
Proof.
  apply (extractTag_of_constructed 2
           {| Indexing.p_size := 256; Indexing.p_entry_size := 64;
              Indexing.p_assoc := 2 |} ip22 6 9 100).
  - reflexivity.
  - lia.
  - reflexivity.
  - simpl. lia.
Defined.

(** ** The checks of the constructors *)

(** Closes the cases of a statement about which outcome a constructor has. *)
Ltac settle_outcome :=
  repeat match goal with
         | H : exists _, _ |- _ => destruct H
         | H : _ /\ _ |- _ => destruct H
         | H : _ \/ _ |- _ => destruct H
         | H : is_Some None |- _ => destruct H
         end;
  try discriminate; try lia; try congruence; eauto.



(** X11: where the divisor of the initialiser of [blks] is not zero, the
    tag store is constructed exactly when an indexing policy is supplied
    and the block size is at least 4 and passes [isPowerOf2]; it then
    holds [size / block_size] blocks, all invalid. A missing indexing
    policy is reported first, whatever the block size. *)
Theorem tags_ctor_outcome p :
  p_block_size p <> 0 ->
  (forall ts, BaseSetAssoc_new p = Ret ts ->
     p_indexing_policy p = Some (indexingPolicy ts)
     /\ 4 <= p_block_size p /\ Tags.isPowerOf2 (p_block_size p) = true
     /\ length (blks ts) = Z.to_nat (p_size p ÷ p_block_size p)
     /\ Forall (fun b => isValid b = false) (blks ts))
  /\ ((exists ts, BaseSetAssoc_new p = Ret ts)
      <-> is_Some (p_indexing_policy p) /\ 4 <= p_block_size p
          /\ Tags.isPowerOf2 (p_block_size p) = true)
  /\ (BaseSetAssoc_new p = Fail (Fatal "An indexing policy is required")
      <-> p_indexing_policy p = None)
  /\ (BaseSetAssoc_new p
      = Fail (Fatal "Block size must be at least 4 and a power of 2")
      <-> is_Some (p_indexing_policy p)
          /\ (p_block_size p < 4 \/ Tags.isPowerOf2 (p_block_size p) = false)).
Proof.
  intros Hnz. unfold BaseSetAssoc_new.
  replace (negb (p_block_size p =? 0)) with true
    by (symmetry; apply negb_true_iff, Z.eqb_neq; exact Hnz).
  cbn [guard bind].
  destruct (p_indexing_policy p) as [ip|];
    [destruct (Z.ltb_spec (p_block_size p) 4) as [Hlt | Hge];
       cbn [orb negb guard bind];
       [|destruct (Tags.isPowerOf2 (p_block_size p)); cbn [negb guard bind]]|];
    repeat split; intros; settle_outcome.
  all: match goal with H : Ret _ = Ret _ |- _ => injection H as <- end.
  all: cbn [indexingPolicy blks]; try reflexivity; try assumption.
  - apply length_replicate.
  - apply Forall_replicate. reflexivity.
Qed.

Lemma tags_ctor_outcome_witness :
  BaseSetAssoc_new
    {| p_size := 1024; p_block_size := 64; p_assoc := 4;
       p_indexing_policy := None |}
  = Fail (Fatal "An indexing policy is required")
  <-> None = (None : option Indexing.BaseIndexingPolicy).
Proof.
  refine (proj1 (proj2 (proj2 (tags_ctor_outcome
                   {| p_size := 1024; p_block_size := 64; p_assoc := 4;
                      p_indexing_policy := None |} _)))).
  simpl. lia.
Defined.

Lemma Indexing_isPowerOf2_spec_witness :
  Indexing.isPowerOf2 64 = true <-> exists k, 0 <= k /\ 64 = 2 ^ k.
Proof. apply (Indexing_isPowerOf2_spec 64). lia. Defined.

Lemma getEntryData_throws_witness :
  Indexing.getEntryData ip4 0 7 true 1 = Fail (OutOfRange "Index out of bounds")
  <-> ~ (exists row, Indexing.sets ip4 !! Z.to_nat 0 = Some row
                     /\ 7 < Z.of_nat (length row)).
Proof.
  refine (proj1 (getEntryData_throws ip4 0 7 true 1 _ _)); lia.
Defined.


(** X15: on a constructed policy, whose sets are resized to [numSegments]
    places, the first [setEntry] writes past the end of the set for every
    index of the table whose way is [numSegments] or more: the write is
    unchecked and has no defined behaviour. *)
Theorem setEntry_past_segments numSegments p ip entries entry index :
  Indexing.BaseIndexingPolicy_new numSegments p = Ret ip ->
  Indexing.assoc ip < 2 ^ 32 ->
  0 <= index < Indexing.assoc ip * Indexing.numSets ip ->
  index < 2 ^ 63 ->
  0 <= numSegments <= index mod Indexing.assoc ip ->
  Indexing.setEntry ip entries entry index
  = Fail (Undefined "sets[set][way] out of bounds").
Proof.
  intros Hnew Hassoc Hindex H63 Hway.
  destruct (constructed_members _ _ _ Hnew) as (Hsets & Hn & _ & _).
  set (a := Indexing.assoc ip) in *. set (n := Indexing.numSets ip) in *.
  assert (0 < a) as Ha.
  { destruct (Z_lt_le_dec 0 a) as [|Hle]; [assumption|]. exfalso.
    assert (a * n <= 0) by nia. lia. }
  assert (0 <= index / a < n) as Hq.
  { split; [apply Z.div_pos; lia|]. apply Z.div_lt_upper_bound; lia. }
  assert (0 <= index mod a < a) as Hr by (apply Z.mod_pos_bound; lia).
  unfold Indexing.setEntry. fold a n.
  replace (negb (a =? 0)) with true
    by (symmetry; apply negb_true_iff, Z.eqb_neq; lia).
  rewrite to_long_long_small by lia.
  rewrite Z.quot_div_nonneg, Z.rem_mod_nonneg by lia.
  unfold Int.to_uint32. rewrite !wrap_small by lia.
  replace (index / a <? n) with true by (symmetry; apply Z.ltb_lt; lia).
  cbn [guard bind].
  unfold Indexing.store_entry. rewrite Hsets.
  rewrite lookup_replicate_2 by lia. rewrite length_replicate.
  replace (index mod a <? Z.of_nat (Z.to_nat numSegments)) with false
    by (symmetry; apply Z.ltb_ge; lia).
  reflexivity.
Qed.

Lemma setEntry_past_segments_witness :
  Indexing.setEntry
    {| Indexing.assoc := 2; Indexing.numSets := 2; Indexing.setShift := 6;
       Indexing.setMask := 1; Indexing.sets := [[None]; [None]];
       Indexing.tagShift := 7 |}
    (fresh_entries 4) 1 1
  = Fail (Undefined "sets[set][way] out of bounds").
Proof.
  apply (setEntry_past_segments 1
           {| Indexing.p_size := 256; Indexing.p_entry_size := 64;
              Indexing.p_assoc := 2 |}).
  - reflexivity.
  - simpl. lia.
  - simpl. lia.
  - lia.
  - change (0 <= 1 <= 1). lia.
Defined.

(** ** The arithmetic of the shortfall *)

(** X16: [(cSize + 63) / 64] is the size in whole segments, rounded up:
    the least number of 64-unit segments that holds [cSize]. *)
Theorem segs_rounds_up c :
  0 <= c -> 64 * (segs c - 1) < c <= 64 * segs c.
Proof.
  intros Hc. unfold segs.
  pose proof (Z.div_mod (c + 63) 64 ltac:(lia)) as Hdm.
  pose proof (Z.mod_pos_bound (c + 63) 64 ltac:(lia)) as Hm.
  lia.
Qed.

Lemma segs_rounds_up_witness : 64 * (segs 65 - 1) < 65 <= 64 * segs 65.
Proof. apply (segs_rounds_up 65). lia. Defined.

(** X17: the shortfall, computed through a [size_t] quotient, an
    [unsigned] difference and a conversion to [int], is the signed value
    [ceil(req_size / 64) - (32 - segments)] for sizes below 2^32 and
    fewer than 2^30 segments, also when more than 32 segments are
    occupied and the unsigned difference wraps around. *)
Theorem shortfall_is_signed req_size segments :
  0 <= req_size < 2 ^ 32 -> 0 <= segments < 2 ^ 30 ->
  extra_segments0 req_size segments
  = segs req_size - (max_set_segments - segments).
Proof. intros Hr Hs. unfold segs. now apply extra_segments0_small. Qed.

Lemma shortfall_is_signed_witness :
  extra_segments0 192 35 = segs 192 - (max_set_segments - 35).
Proof. apply (shortfall_is_signed 192 35); lia. Defined.

(** ** The table of a constructed policy *)

(** X18: a constructed policy has [numSets] sets, at least one, of
    [numSegments] places each; so its table has room for [assoc] ways in
    every set, as [tagsInit] needs, exactly when [assoc <= numSegments]. *)
Theorem constructed_table_shaped numSegments p ip :
  Indexing.BaseIndexingPolicy_new numSegments p = Ret ip ->
  0 <= numSegments ->
  0 < Indexing.numSets ip
  /\ length (Indexing.sets ip) = Z.to_nat (Indexing.numSets ip)
  /\ Forall (fun row => Z.of_nat (length row) = numSegments) (Indexing.sets ip)
  /\ (table_shaped ip <-> Indexing.assoc ip <= numSegments).
Proof.
  intros Hnew Hseg.
  destruct (constructed_members _ _ _ Hnew) as (Hsets & Hn & Hpow & _).
  assert (0 < Indexing.numSets ip) as Hpos.
  { unfold Indexing.isPowerOf2 in Hpow.
    apply andb_true_iff in Hpow as [Hnz _].
    apply negb_true_iff, Z.eqb_neq in Hnz. lia. }
  assert (Forall (fun row => Z.of_nat (length row) = numSegments)
            (Indexing.sets ip)) as Hrows.
  { rewrite Hsets. apply Forall_replicate. rewrite length_replicate. lia. }
  assert (length (Indexing.sets ip) = Z.to_nat (Indexing.numSets ip)) as Hlen
    by (rewrite Hsets at 1; apply length_replicate).
  split; [exact Hpos|]. split; [exact Hlen|]. split; [exact Hrows|]. split.
  - intros [_ Hroom].
    destruct (Indexing.sets ip) as [|row rows] eqn:E; [simpl in Hlen; lia|].
    apply Forall_cons in Hroom as [Hroom _].
    apply Forall_cons in Hrows as [Hrow _]. lia.
  - intros Hle. split; [exact Hlen|]. eapply Forall_impl; [exact Hrows|].
    intros row Hrow. simpl in Hrow. lia.
Qed.

Lemma constructed_table_shaped_witness :
  0 < Indexing.numSets ip22
  /\ length (Indexing.sets ip22) = Z.to_nat (Indexing.numSets ip22)
  /\ Forall (fun row => Z.of_nat (length row) = 2) (Indexing.sets ip22)
  /\ (table_shaped ip22 <-> Indexing.assoc ip22 <= 2).
Proof.
  apply (constructed_table_shaped 2
           {| Indexing.p_size := 256; Indexing.p_entry_size := 64;
              Indexing.p_assoc := 2 |} ip22).
  - reflexivity.
  - lia.
Defined.
